(** * Accounting core of the two-asset pool: embedding and properties

    Three pieces of the repository are embedded here.

    - [Dex]: the pool part of the "DeFi and DAO Smart Contract"
      (second document of [contracts/pool.ts]): [createPool],
      [addLiquidity] and [swapAtoB] over the global [pools] map.
    - [TonCell]: the cell builder used by the TypeScript wrappers and
      [poolConfigToCell], the initial storage of a deployed pool.
    - [PoolSpec]: the fee schedule and the fee collector, whose contract
      code is not part of the sources; they are modelled from the
      specification.

    [Dex] also holds the staking, loan and DAO functions of the contract
    and the runs made of its calls; [TonCell] also holds the message
    bodies of the pool wrapper and the other encoders of
    [contracts/pool.ts], with the readers that undo them. *)

From Stdlib Require Import ZArith Lia List Bool.
From stdpp Require Import gmap.
Import ListNotations.
Open Scope Z_scope.

(** ** Integers of the contract language

    The contract includes [stdlib.fc]: its [int] is the 257-bit signed
    integer of the TVM.  An arithmetic result outside that range, and a
    division by zero, abort the whole transaction; nothing is written. *)

Inductive exn : Type :=
| IntegerOverflow
| DivisionByZero
| RequireFailed (code : Z).

Inductive result (A : Type) : Type :=
| Ok (a : A)
| Throw (e : exn).

Arguments Ok {A} a.
Arguments Throw {A} e.

Definition bind {A B : Type} (m : result A) (k : A -> result B) : result B :=
  match m with
  | Ok a => k a
  | Throw e => Throw e
  end.

Notation "'let!' x ':=' m 'in' k" := (bind m (fun x => k))
  (at level 10, x name, m at level 100, k at level 200).

Definition INT_MIN : Z := - 2 ^ 256.
Definition INT_MAX : Z := 2 ^ 256 - 1.

Definition fits (z : Z) : bool := (INT_MIN <=? z) && (z <=? INT_MAX).

Definition checked (z : Z) : result Z :=
  if fits z then Ok z else Throw IntegerOverflow.

Definition add (x y : Z) : result Z := checked (x + y).
Definition sub (x y : Z) : result Z := checked (x - y).
Definition mul (x y : Z) : result Z := checked (x * y).

(** [/] of the contract language rounds toward minus infinity, as [Z.div]. *)
Definition div (x y : Z) : result Z :=
  if y =? 0 then Throw DivisionByZero else checked (x / y).

(** ** The pool part of the DeFi contract *)

Module Dex.

(** Identities ([msg.sender], recipients) are opaque to the accounting. *)
Definition address : Type := Z.

Record Pool : Type := mkPool {
  totalLiquidity : Z;
  tokenA : Z;
  tokenB : Z;
  liquidityProviders : gmap Z Z
}.

Record Staker : Type := mkStaker {
  stakedAmount : Z;
  rewardDebt : Z
}.

Record Loan : Type := mkLoan {
  loanAmount : Z;
  collateralAmount : Z;
  interestRate : Z;
  dueBlock : Z;
  isRepaid : bool
}.

Record DAO : Type := mkDAO {
  members : gmap Z Z;
  treasury : Z
}.

(** The global variables of the contract. *)
Record State : Type := mkState {
  pools : gmap Z Pool;
  stakers : gmap Z Staker;
  loans : gmap Z Loan;
  communityDAO : DAO;
  poolCount : Z;
  rewardPerBlock : Z;
  loanInterestRate : Z;
  loanDuration : Z
}.

Definition initial_state : State :=
  mkState ∅ ∅ ∅ (mkDAO ∅ 0) 0 10 5 100.

(** Concrete states used to run the operations: one pool, with id 1. *)
Definition one_pool (p : Pool) : State :=
  mkState {[ 1 := p ]} ∅ ∅ (mkDAO ∅ 0) 1 10 5 100.

(** Reserves of one million each, as left by [createPool(1000000, 1000000)]. *)
Definition st_1M : State := one_pool (mkPool 2000000 1000000 1000000 ∅).

(** An input reserve of zero against an output reserve of 1000. *)
Definition st_zeroA : State := one_pool (mkPool 1000 0 1000 ∅).

(** The state left by [createPool(100000, 400000)] on the initial state. *)
Definition st_first_deposit : State := one_pool (mkPool 500000 100000 400000 ∅).

Definition set_pools (st : State) (ps : gmap Z Pool) : State :=
  mkState ps (stakers st) (loans st) (communityDAO st) (poolCount st)
          (rewardPerBlock st) (loanInterestRate st) (loanDuration st).

Definition set_poolCount (st : State) (n : Z) : State :=
  mkState (pools st) (stakers st) (loans st) (communityDAO st) n
          (rewardPerBlock st) (loanInterestRate st) (loanDuration st).

(** Reading a key that was never written yields the zero value of the
    struct: [requestLoan] reads [loans[msg.sender]] and takes
    [loanAmount == 0] to mean that no loan exists. *)
Definition zero_pool : Pool := mkPool 0 0 0 ∅.

Definition pool_at (st : State) (poolId : Z) : Pool :=
  default zero_pool (pools st !! poolId).

Definition balance_of (lp : gmap Z Z) (who : address) : Z :=
  default 0 (lp !! who).

(** A call of [sendToken(recipient, amount)].  Its body in the source is
    empty, so a call changes no variable; the calls are kept as the
    observable output of an operation. *)
Definition Transfer : Type := (address * Z)%type.

(** [createPool(amountA, amountB)]: returns the new pool id. *)
Definition createPool (st : State) (amountA amountB : Z) : result (State * Z) :=
  let! n := add (poolCount st) 1 in
  let! liq := add amountA amountB in
  let newPool := mkPool liq amountA amountB ∅ in
  Ok (set_pools (set_poolCount st n) (<[n := newPool]> (pools st)), n).

(** [addLiquidity(poolId, amountA, amountB)] called by [sender]. *)
Definition addLiquidity (st : State) (sender : address)
    (poolId amountA amountB : Z) : result State :=
  let pool := pool_at st poolId in
  let! tA := add (tokenA pool) amountA in
  let! tB := add (tokenB pool) amountB in
  let! s1 := add amountA amountB in
  let! liq := add (totalLiquidity pool) s1 in
  let! s2 := add amountA amountB in
  let! bal := add (balance_of (liquidityProviders pool) sender) s2 in
  let pool' := mkPool liq tA tB (<[sender := bal]> (liquidityProviders pool)) in
  Ok (set_pools st (<[poolId := pool']> (pools st))).

(** [swapAtoB(poolId, amountA)] called by [sender]. *)
Definition swapAtoB (st : State) (sender : address)
    (poolId amountA : Z) : result (State * list Transfer) :=
  let pool := pool_at st poolId in
  let! num := mul amountA (tokenB pool) in
  let! den := add (tokenA pool) amountA in
  let! amountB := div num den in
  let! tA := add (tokenA pool) amountA in
  let! tB := sub (tokenB pool) amountB in
  let pool' := mkPool (totalLiquidity pool) tA tB (liquidityProviders pool) in
  Ok (set_pools st (<[poolId := pool']> (pools st)), [(sender, amountB)]).

(** The constant-product quantity of a pool. *)
Definition product (p : Pool) : Z := tokenA p * tokenB p.

(** The output of the pricing formula, as the source computes it. *)
Definition amount_out (p : Pool) (amountA : Z) : Z :=
  (amountA * tokenB p) / (tokenA p + amountA).

(** The pool written back by a swap. *)
Definition swapped (p : Pool) (amountA : Z) : Pool :=
  mkPool (totalLiquidity p) (tokenA p + amountA)
         (tokenB p - amount_out p amountA) (liquidityProviders p).

(** *** Staking, loans and the DAO *)

(** The calls of [sendToken] and [receiveToken] made by an operation, in
    order.  Both bodies are empty in the source. *)
Inductive Event : Type :=
| Sent (recipient : address) (amount : Z)
| Received (sender : address) (amount : Z).

Definition set_stakers (st : State) (ss : gmap Z Staker) : State :=
  mkState (pools st) ss (loans st) (communityDAO st) (poolCount st)
          (rewardPerBlock st) (loanInterestRate st) (loanDuration st).

Definition set_loans (st : State) (ls : gmap Z Loan) : State :=
  mkState (pools st) (stakers st) ls (communityDAO st) (poolCount st)
          (rewardPerBlock st) (loanInterestRate st) (loanDuration st).

Definition set_communityDAO (st : State) (d : DAO) : State :=
  mkState (pools st) (stakers st) (loans st) d (poolCount st)
          (rewardPerBlock st) (loanInterestRate st) (loanDuration st).

Definition zero_staker : Staker := mkStaker 0 0.
Definition zero_loan : Loan := mkLoan 0 0 0 0 false.

Definition staker_at (st : State) (who : address) : Staker :=
  default zero_staker (stakers st !! who).

Definition loan_at (st : State) (who : address) : Loan :=
  default zero_loan (loans st !! who).

(** [require(cond, code)] *)
Definition require (cond : bool) (code : Z) : result unit :=
  if cond then Ok tt else Throw (RequireFailed code).

(** [getCurrentBlock()]: the placeholder of the source. *)
Definition getCurrentBlock : Z := 0.

(** [stakeLP(amount)] called by [sender]. *)
Definition stakeLP (st : State) (sender : address) (amount : Z)
    : result (State * list Event) :=
  let staker := staker_at st sender in
  let! staked := add (stakedAmount staker) amount in
  let! r := mul amount (rewardPerBlock st) in
  let! debt := add (rewardDebt staker) r in
  Ok (set_stakers st (<[sender := mkStaker staked debt]> (stakers st)),
      [Received sender amount]).

(** [claimYieldRewards()] called by [sender]. *)
Definition claimYieldRewards (st : State) (sender : address)
    : result (State * list Event) :=
  let staker := staker_at st sender in
  let! gross := mul (stakedAmount staker) (rewardPerBlock st) in
  let! pendingReward := sub gross (rewardDebt staker) in
  let! debt := mul (stakedAmount staker) (rewardPerBlock st) in
  Ok (set_stakers st (<[sender := mkStaker (stakedAmount staker) debt]> (stakers st)),
      [Sent sender pendingReward]).

(** [requestLoan(collateralAmount)] called by [sender]. *)
Definition requestLoan (st : State) (sender : address) (collateral : Z)
    : result (State * list Event) :=
  let! ok1 := require (0 <? collateral) 101 in
  let loan := loan_at st sender in
  let! ok2 := require (loanAmount loan =? 0) 102 in
  let! n := mul collateral 100 in
  let! d := add 100 (loanInterestRate st) in
  let! amount := div n d in
  let! due := add getCurrentBlock (loanDuration st) in
  let loan' := mkLoan amount collateral (loanInterestRate st) due false in
  Ok (set_loans st (<[sender := loan']> (loans st)),
      [Received sender collateral; Sent sender amount]).

(** [repayLoan()] called by [sender]. *)
Definition repayLoan (st : State) (sender : address)
    : result (State * list Event) :=
  let loan := loan_at st sender in
  let! ok := require (negb (isRepaid loan)) 103 in
  let! i := mul (loanAmount loan) (interestRate loan) in
  let! interest := div i 100 in
  let! repaymentAmount := add (loanAmount loan) interest in
  let loan' := mkLoan (loanAmount loan) (collateralAmount loan)
                      (interestRate loan) (dueBlock loan) true in
  Ok (set_loans st (<[sender := loan']> (loans st)),
      [Received sender repaymentAmount; Sent sender (collateralAmount loan)]).

(** [proposeInitiative(amount)] called by [sender]. *)
Definition proposeInitiative (st : State) (sender : address) (amount : Z)
    : result State :=
  let! ok := require (bool_decide (is_Some (members (communityDAO st) !! sender))) 104 in
  let! t := sub (treasury (communityDAO st)) amount in
  Ok (set_communityDAO st (mkDAO (members (communityDAO st)) t)).

(** *** Sequences of calls

    [main] is empty in the source; a run of the contract is taken to be
    any sequence of calls of its functions, each by some sender.  A call
    that aborts writes nothing and is not a step. *)
Inductive Call : Type :=
| CreatePool (amountA amountB : Z)
| AddLiquidity (poolId amountA amountB : Z)
| SwapAtoB (poolId amountA : Z)
| StakeLP (amount : Z)
| ClaimYieldRewards
| RequestLoan (collateral : Z)
| RepayLoan
| ProposeInitiative (amount : Z).

Definition state_of {A B : Type} (r : result (A * B)) : result A :=
  let! x := r in Ok (fst x).

Definition exec (st : State) (sender : address) (c : Call) : result State :=
  match c with
  | CreatePool a b => state_of (createPool st a b)
  | AddLiquidity i a b => addLiquidity st sender i a b
  | SwapAtoB i a => state_of (swapAtoB st sender i a)
  | StakeLP a => state_of (stakeLP st sender a)
  | ClaimYieldRewards => state_of (claimYieldRewards st sender)
  | RequestLoan c => state_of (requestLoan st sender c)
  | RepayLoan => state_of (repayLoan st sender)
  | ProposeInitiative a => proposeInitiative st sender a
  end.

(** [steps st st']: [st'] is reached from [st] by successful calls. *)
Inductive steps (st : State) : State -> Prop :=
| steps_refl : steps st st
| steps_call st1 st2 sender c :
    steps st st1 -> exec st1 sender c = Ok st2 -> steps st st2.

Definition reachable (st : State) : Prop := steps initial_state st.

(** Concrete states of the staking and loan examples: sender 7 after
    [stakeLP(100)], after [requestLoan(100)], and after repaying. *)
Definition st_staked : State :=
  set_stakers initial_state {[ 7 := mkStaker 100 1000 ]}.

Definition st_loan : State :=
  set_loans initial_state {[ 7 := mkLoan 95 100 5 100 false ]}.

Definition st_repaid : State :=
  set_loans initial_state {[ 7 := mkLoan 95 100 5 100 true ]}.

(** Every staker record carries a debt equal to its stake times the
    reward rate. *)
Definition debt_settled (st : State) : Prop :=
  forall who s, stakers st !! who = Some s ->
    rewardDebt s = stakedAmount s * rewardPerBlock st.

(** The liquidity credited to providers, summed over the map. *)
Definition provider_total (lp : gmap Z Z) : Z :=
  map_fold (fun _ v acc => v + acc) 0 lp.

End Dex.

(** ** Cells and the initial storage of a deployed pool *)

Module TonCell.

(** A cell holds up to 1023 bits and up to 4 references.  The builder of
    the TON library is the same structure under construction; a store
    that does not fit, or a value that is out of range for its width,
    raises, which is [None] here. *)
#[warnings="-register-all"]
Inductive Cell : Type :=
| mkCell (bits : list bool) (refs : list Cell).

(** The method chain [b.storeX(..).storeY(..)]: each call works on the
    builder left by the previous one, and a raise ends the chain. *)
Definition chain {A B : Type} (m : option A) (f : A -> option B) : option B :=
  match m with
  | Some a => f a
  | None => None
  end.

Notation "m >>= f" := (chain m f) (at level 50, left associativity).

Definition bits (c : Cell) : list bool := match c with mkCell b _ => b end.
Definition refs (c : Cell) : list Cell := match c with mkCell _ r => r end.

Definition MAX_BITS : nat := 1023.
Definition MAX_REFS : nat := 4.

Definition beginCell : Cell := mkCell [] [].
Definition endCell (b : Cell) : option Cell := Some b.

(** The [n] low bits of [v], most significant first. *)
Fixpoint uint_bits (n : nat) (v : Z) : list bool :=
  match n with
  | O => []
  | S k => Z.testbit v (Z.of_nat k) :: uint_bits k v
  end.

(** The unsigned number spelled by a run of bits, most significant first. *)
Definition bits_uint (l : list bool) : Z :=
  fold_left (fun acc b => 2 * acc + Z.b2z b) l 0.

Definition storeBits (l : list bool) (b : Cell) : option Cell :=
  if (length (bits b) + length l <=? MAX_BITS)%nat
  then Some (mkCell (bits b ++ l) (refs b))
  else None.

Definition storeUint (v : Z) (n : nat) (b : Cell) : option Cell :=
  if (0 <=? v) && (v <? 2 ^ Z.of_nat n)
  then storeBits (uint_bits n v) b
  else None.

(** Two's complement on [n] bits. *)
Definition storeInt (v : Z) (n : nat) (b : Cell) : option Cell :=
  if (- 2 ^ (Z.of_nat n - 1) <=? v) && (v <? 2 ^ (Z.of_nat n - 1))
  then storeBits (uint_bits n (v mod 2 ^ Z.of_nat n)) b
  else None.

Definition storeRef (c : Cell) (b : Cell) : option Cell :=
  if (length (refs b) <? MAX_REFS)%nat
  then Some (mkCell (bits b) (refs b ++ [c]))
  else None.

(** A standard address: workchain and 256-bit account hash. *)
Record Address : Type := mkAddress {
  workChain : Z;
  hash : Z
}.

(** Tag [10], no anycast, 8-bit workchain, 256-bit hash. *)
Definition storeAddress (a : Address) (b : Cell) : option Cell :=
  Some b >>= storeUint 2 2 >>= storeUint 0 1
         >>= storeInt (workChain a) 8 >>= storeUint (hash a) 256.

(** [storeDict(Dictionary.empty())]: an empty dictionary is the single
    bit 0 (an absent root). *)
Definition storeDict_empty (b : Cell) : option Cell := storeBits [false] b.

Definition valid_address (a : Address) : Prop :=
  -128 <= workChain a < 128 /\ 0 <= hash a < 2 ^ 256.

(** The 267 bits of a standard address. *)
Definition address_bits (a : Address) : list bool :=
  [true; false] ++ [false] ++ uint_bits 8 (workChain a mod 2 ^ 8)
    ++ uint_bits 256 (hash a).

Record PoolConfig : Type := mkPoolConfig {
  owner_address : Address;
  token_a_address : Address;
  token_b_address : Address;
  lp_token_address : Address;
  min_liquidity : Z
}.

(** What the builder accepts: well-formed addresses and a liquidity
    floor that fits its 128-bit field. *)
Definition valid_config (config : PoolConfig) : Prop :=
  valid_address (owner_address config) /\
  valid_address (token_a_address config) /\
  valid_address (token_b_address config) /\
  valid_address (lp_token_address config) /\
  0 <= min_liquidity config < 2 ^ 128.

(** [beginCell().storeAddress(a).endCell()] *)
Definition addressCell (a : Address) : option Cell :=
  Some beginCell >>= storeAddress a >>= endCell.

Definition poolConfigToCell (config : PoolConfig) : option Cell :=
  owner ← addressCell (owner_address config);
  token_a ← addressCell (token_a_address config);
  token_b ← addressCell (token_b_address config);
  lp_token ← addressCell (lp_token_address config);
  Some beginCell
    >>= storeRef owner
    >>= storeRef token_a
    >>= storeRef token_b
    >>= storeUint 0 128                       (* reserve_a *)
    >>= storeUint 0 128                       (* reserve_b *)
    >>= storeUint 0 128                       (* total_supply *)
    >>= storeUint (min_liquidity config) 128
    >>= storeUint 0 1                         (* is_locked *)
    >>= storeDict_empty                       (* authorized_addresses *)
    >>= storeRef lp_token
    >>= endCell.

(** *** Request encoders of [contracts/pool.ts] *)

Section Messages.

(** [beginMessage] is imported from [./helpers], which is not among the
    sources; it is a parameter: a builder that already holds the header
    of the message for the given opcode. *)
Variable beginMessage : Z -> option Cell.

Definition setFees (newLPFee newProtocolFees newRefFee : Z)
    (newProtocolFeeAddress : Address) : option Cell :=
  beginMessage 0x355423e5
    >>= storeUint newLPFee 8
    >>= storeUint newProtocolFees 8
    >>= storeUint newRefFee 8
    >>= storeAddress newProtocolFeeAddress
    >>= endCell.

Definition collectFees : option Cell :=
  beginMessage 0x1fcb7d3d >>= endCell.

End Messages.

(** A header made of the 32-bit opcode alone, to run the encoders. *)
Definition opcode_header (op : Z) : option Cell :=
  Some beginCell >>= storeUint op 32.

(** *** Reading the storage back

    The reader follows the layout written by [poolConfigToCell], field
    by field. *)

Definition loadUint (n : nat) (l : list bool) : option (Z * list bool) :=
  if (n <=? length l)%nat
  then Some (bits_uint (take n l), drop n l)
  else None.

Record PoolData : Type := mkPoolData {
  reserve_a : Z;
  reserve_b : Z;
  total_supply : Z;
  stored_min_liquidity : Z;
  is_locked : bool;
  authorized_empty : bool
}.

Definition loadPoolData (c : Cell) : option PoolData :=
  '(ra, l1) ← loadUint 128 (bits c);
  '(rb, l2) ← loadUint 128 l1;
  '(ts, l3) ← loadUint 128 l2;
  '(ml, l4) ← loadUint 128 l3;
  '(lk, l5) ← loadUint 1 l4;
  '(dict, l6) ← loadUint 1 l5;
  match l6 with
  | [] => Some (mkPoolData ra rb ts ml (negb (lk =? 0)) (dict =? 0))
  | _ :: _ => None
  end.

(** The two states of the pool controller. *)
Inductive LockState : Type := Active | Locked.

Definition lock_state (d : PoolData) : LockState :=
  if is_locked d then Locked else Active.

(** *** More of the builder: single bits, optional addresses, coins *)

Definition storeBit (x : bool) (b : Cell) : option Cell := storeBits [x] b.

(** [storeAddress] of a value that may be [null] or [undefined]: the
    absent address is the two bits [00]. *)
Definition storeMaybeAddress (a : option Address) (b : Cell) : option Cell :=
  match a with
  | Some a => storeAddress a b
  | None => storeUint 0 2 b
  end.

Definition maybe_address_bits (a : option Address) : list bool :=
  match a with
  | Some a => address_bits a
  | None => [false; false]
  end.

(** Number of bytes of a positive amount. *)
Definition bytes_of (v : Z) : Z := (Z.log2 v + 8) / 8.

(** [storeCoins]: a 4-bit byte count, then the amount on that many
    bytes; zero is the byte count 0 alone.  Amounts are not negative. *)
Definition storeCoins (v : Z) (b : Cell) : option Cell :=
  if v <? 0 then None
  else if v =? 0 then storeUint 0 4 b
  else Some b >>= storeUint (bytes_of v) 4
              >>= storeUint v (Z.to_nat (8 * bytes_of v)).

Definition coins_bits (v : Z) : list bool :=
  if v =? 0 then uint_bits 4 0
  else uint_bits 4 (bytes_of v) ++ uint_bits (Z.to_nat (8 * bytes_of v)) v.

(** *** Readers (the slice side of the builder) *)

Definition loadBit (l : list bool) : option (bool * list bool) :=
  match l with
  | x :: rest => Some (x, rest)
  | [] => None
  end.

Definition loadInt (n : nat) (l : list bool) : option (Z * list bool) :=
  '(v, rest) ← loadUint n l;
  Some (if 2 ^ (Z.of_nat n - 1) <=? v then v - 2 ^ Z.of_nat n else v, rest).

Definition loadCoins (l : list bool) : option (Z * list bool) :=
  '(size, rest) ← loadUint 4 l;
  loadUint (Z.to_nat (8 * size)) rest.

Definition loadMaybeAddress (l : list bool) : option (option Address * list bool) :=
  '(tag, l1) ← loadUint 2 l;
  if tag =? 0 then Some (None, l1)
  else if tag =? 2 then
    '(anycast, l2) ← loadUint 1 l1;
    if anycast =? 0 then
      '(wc, l3) ← loadInt 8 l2;
      '(h, l4) ← loadUint 256 l3;
      Some (Some (mkAddress wc h), l4)
    else None
  else None.

(** A cell that holds one address and nothing else. *)
Definition loadAddressCell (c : Cell) : option Address :=
  match loadMaybeAddress (bits c), refs c with
  | Some (Some a, []), [] => Some a
  | _, _ => None
  end.

(** *** Message bodies of the pool wrapper

    Each [send...] method builds a body and hands it, with the value and
    the send mode, to the provider; the body is what is modelled. *)

Module PoolOpcodes.
Definition mint_tokens : Z := 100.
Definition burn_tokens : Z := 101.
Definition add_liquidity : Z := 102.
Definition remove_liquidity : Z := 103.
Definition update_reserves : Z := 104.
Definition set_lock_status : Z := 105.
Definition initialize_contract : Z := 106.
Definition add_authorized : Z := 107.
Definition remove_authorized : Z := 108.
End PoolOpcodes.

Definition sendDeploy (config : PoolConfig) : option Cell :=
  owner ← addressCell (owner_address config);
  token_a ← addressCell (token_a_address config);
  token_b ← addressCell (token_b_address config);
  lp_token ← addressCell (lp_token_address config);
  Some beginCell
    >>= storeUint PoolOpcodes.initialize_contract 32
    >>= storeRef owner
    >>= storeRef token_a
    >>= storeRef token_b
    >>= storeRef lp_token
    >>= endCell.

(** [via.address] may be absent at run time. *)
Definition sendAddLiquidity (amount_a amount_b : Z) (via : option Address)
    : option Cell :=
  Some beginCell
    >>= storeUint PoolOpcodes.add_liquidity 32
    >>= storeUint amount_a 128
    >>= storeUint amount_b 128
    >>= storeMaybeAddress via
    >>= endCell.

Definition sendRemoveLiquidity (liquidity_amount : Z) (via : option Address)
    : option Cell :=
  Some beginCell
    >>= storeUint PoolOpcodes.remove_liquidity 32
    >>= storeUint liquidity_amount 128
    >>= storeMaybeAddress via
    >>= endCell.

Definition sendUpdateReserves (new_reserve_a new_reserve_b : Z) : option Cell :=
  Some beginCell
    >>= storeUint PoolOpcodes.update_reserves 32
    >>= storeUint new_reserve_a 128
    >>= storeUint new_reserve_b 128
    >>= endCell.

Definition sendAddAuthorized (address : Address) : option Cell :=
  Some beginCell
    >>= storeUint PoolOpcodes.add_authorized 32
    >>= storeAddress address
    >>= endCell.

Definition sendRemoveAuthorized (address : Address) : option Cell :=
  Some beginCell
    >>= storeUint PoolOpcodes.remove_authorized 32
    >>= storeAddress address
    >>= endCell.

Definition sendSetLockStatus (status : bool) : option Cell :=
  Some beginCell
    >>= storeUint PoolOpcodes.set_lock_status 32
    >>= storeUint (if status then 1 else 0) 1
    >>= endCell.

(** The requests of the wrapper, and the body of each. *)
Inductive PoolMessage : Type :=
| MsgDeploy (owner token_a token_b lp_token : Address)
| MsgAddLiquidity (amount_a amount_b : Z) (via : option Address)
| MsgRemoveLiquidity (liquidity_amount : Z) (via : option Address)
| MsgUpdateReserves (new_reserve_a new_reserve_b : Z)
| MsgAddAuthorized (address : Address)
| MsgRemoveAuthorized (address : Address)
| MsgSetLockStatus (status : bool).

Definition body_of (m : PoolMessage) : option Cell :=
  match m with
  | MsgDeploy o a b l => sendDeploy (mkPoolConfig o a b l 0)
  | MsgAddLiquidity a b via => sendAddLiquidity a b via
  | MsgRemoveLiquidity l via => sendRemoveLiquidity l via
  | MsgUpdateReserves a b => sendUpdateReserves a b
  | MsgAddAuthorized a => sendAddAuthorized a
  | MsgRemoveAuthorized a => sendRemoveAuthorized a
  | MsgSetLockStatus s => sendSetLockStatus s
  end.

Definition uint128 (v : Z) : Prop := 0 <= v < 2 ^ 128.

Definition valid_maybe_address (a : option Address) : Prop :=
  match a with
  | Some a => valid_address a
  | None => True
  end.

(** The requests the builder accepts. *)
Definition valid_message (m : PoolMessage) : Prop :=
  match m with
  | MsgDeploy o a b l =>
      valid_address o /\ valid_address a /\ valid_address b /\ valid_address l
  | MsgAddLiquidity a b via => uint128 a /\ uint128 b /\ valid_maybe_address via
  | MsgRemoveLiquidity l via => uint128 l /\ valid_maybe_address via
  | MsgUpdateReserves a b => uint128 a /\ uint128 b
  | MsgAddAuthorized a | MsgRemoveAuthorized a => valid_address a
  | MsgSetLockStatus _ => True
  end.

(** Reading a body back: the 32-bit opcode selects the layout. *)
Definition readBody (c : Cell) : option PoolMessage :=
  '(op, l) ← loadUint 32 (bits c);
  if op =? PoolOpcodes.initialize_contract then
    match l, refs c with
    | [], [o; a; b; lp] =>
        o ← loadAddressCell o; a ← loadAddressCell a;
        b ← loadAddressCell b; lp ← loadAddressCell lp;
        Some (MsgDeploy o a b lp)
    | _, _ => None
    end
  else if op =? PoolOpcodes.add_liquidity then
    '(a, l1) ← loadUint 128 l;
    '(b, l2) ← loadUint 128 l1;
    '(via, l3) ← loadMaybeAddress l2;
    match l3 with [] => Some (MsgAddLiquidity a b via) | _ => None end
  else if op =? PoolOpcodes.remove_liquidity then
    '(a, l1) ← loadUint 128 l;
    '(via, l2) ← loadMaybeAddress l1;
    match l2 with [] => Some (MsgRemoveLiquidity a via) | _ => None end
  else if op =? PoolOpcodes.update_reserves then
    '(a, l1) ← loadUint 128 l;
    '(b, l2) ← loadUint 128 l1;
    match l2 with [] => Some (MsgUpdateReserves a b) | _ => None end
  else if op =? PoolOpcodes.add_authorized then
    '(a, l1) ← loadMaybeAddress l;
    match a, l1 with Some a, [] => Some (MsgAddAuthorized a) | _, _ => None end
  else if op =? PoolOpcodes.remove_authorized then
    '(a, l1) ← loadMaybeAddress l;
    match a, l1 with Some a, [] => Some (MsgRemoveAuthorized a) | _, _ => None end
  else if op =? PoolOpcodes.set_lock_status then
    '(s, l1) ← loadBit l;
    match l1 with [] => Some (MsgSetLockStatus s) | _ => None end
  else None.

(** Reading the configuration back from the initial storage. *)
Definition readConfig (c : Cell) : option PoolConfig :=
  match refs c with
  | [o; a; b; lp] =>
      o ← loadAddressCell o; a ← loadAddressCell a;
      b ← loadAddressCell b; lp ← loadAddressCell lp;
      d ← loadPoolData c;
      Some (mkPoolConfig o a b lp (stored_min_liquidity d))
  | _ => None
  end.

(** *** The other encoders of [contracts/pool.ts] *)

Definition uint8 (v : Z) : Prop := 0 <= v < 2 ^ 8.
Definition coins (v : Z) : Prop := 0 <= v < 2 ^ 120.

(** The parameters of [data]. *)
Record PoolStorage : Type := mkPoolStorage {
  routerAddress : Address;
  lpFee : Z;
  protocolFee : Z;
  refFee : Z;
  protocolFeesAddress : Address;
  collectedTokenAProtocolFees : Z;
  collectedTokenBProtocolFees : Z;
  reserve0 : Z;
  reserve1 : Z;
  wallet0 : Address;
  wallet1 : Address;
  supplyLP : Z;
  LPWalletCode : Cell;
  LPAccountCode : Cell
}.

Definition data (params : PoolStorage) : option Cell :=
  inner ← (Some beginCell
             >>= storeCoins (collectedTokenAProtocolFees params)
             >>= storeCoins (collectedTokenBProtocolFees params)
             >>= storeAddress (protocolFeesAddress params)
             >>= storeCoins (reserve0 params)
             >>= storeCoins (reserve1 params)
             >>= endCell);
  Some beginCell
    >>= storeAddress (routerAddress params)
    >>= storeUint (lpFee params) 8
    >>= storeUint (protocolFee params) 8
    >>= storeUint (refFee params) 8
    >>= storeAddress (wallet0 params)
    >>= storeAddress (wallet1 params)
    >>= storeCoins (supplyLP params)
    >>= storeRef inner
    >>= storeRef (LPWalletCode params)
    >>= storeRef (LPAccountCode params)
    >>= endCell.



Section Requests.

Variable beginMessage : Z -> option Cell.

Definition burnTokensNotification (jettonAmount : Z) (fromAddress : Address)
    (responseAddress : option Address) : option Cell :=
  beginMessage 0x7bdd97de
    >>= storeCoins jettonAmount
    >>= storeAddress fromAddress
    >>= storeMaybeAddress responseAddress
    >>= endCell.

Definition resetGas : option Cell :=
  beginMessage 0x42a0fb43 >>= endCell.

(** [hasRef] and [refAddress] are optional: [!!params.hasRef] is false
    for an absent flag, [params.refAddress || null] is the absent
    address.  [toAddress] is a parameter of the source that its body
    does not use. *)
Definition swap (fromAddress tokenWallet : Address) (jettonAmount : Z)
    (toAddress : Address) (minOutput : Z)
    (hasRef : option bool) (refAddress : option Address) : option Cell :=
  refCell ← (Some beginCell
               >>= storeAddress fromAddress
               >>= storeMaybeAddress refAddress
               >>= endCell);
  beginMessage 0x25938561
    >>= storeAddress fromAddress
    >>= storeAddress tokenWallet
    >>= storeCoins jettonAmount
    >>= storeCoins minOutput
    >>= storeBit (default false hasRef)
    >>= storeBit true
    >>= storeRef refCell
    >>= endCell.

Definition provideLiquidity (fromAddress : Address)
    (jettonAmount0 jettonAmount1 minLPOut : Z) : option Cell :=
  beginMessage 0xfcf9e58f
    >>= storeAddress fromAddress
    >>= storeCoins minLPOut
    >>= storeCoins jettonAmount0
    >>= storeCoins jettonAmount1
    >>= endCell.

Definition getPoolData : option Cell :=
  beginMessage 0x43c034e6 >>= endCell.

Definition getExpectedOutputs (jettonAmount : Z) (tokenSent : Address)
    : option Cell :=
  beginMessage 0xed4d8b67
    >>= storeCoins jettonAmount
    >>= storeAddress tokenSent
    >>= endCell.

Definition getCachedLPByAddress (userAddress : Address) : option Cell :=
  beginMessage 0x0c0671db
    >>= storeAddress userAddress
    >>= endCell.

End Requests.

(** What a [swap] request carries, as read back from its payload (the
    bits after the header) and its reference cell. *)
Record SwapPayload : Type := mkSwapPayload {
  swap_from : Address;
  swap_wallet : Address;
  swap_amount : Z;
  swap_min_output : Z;
  swap_has_ref : bool;
  swap_well_formed : bool;
  swap_ref_from : Address;
  swap_ref_address : option Address
}.

Definition readSwap (payload : list bool) (refCell : Cell) : option SwapPayload :=
  '(from, l1) ← loadMaybeAddress payload;
  '(wallet, l2) ← loadMaybeAddress l1;
  '(amount, l3) ← loadCoins l2;
  '(minOut, l4) ← loadCoins l3;
  '(hasRef, l5) ← loadBit l4;
  '(flag, l6) ← loadBit l5;
  '(from', r1) ← loadMaybeAddress (bits refCell);
  '(ref, r2) ← loadMaybeAddress r1;
  match from, wallet, from', l6, r2 with
  | Some from, Some wallet, Some from', [], [] =>
      Some (mkSwapPayload from wallet amount minOut hasRef flag from' ref)
  | _, _, _, _, _ => None
  end.

(** The payload of [provideLiquidity]: sender, then the minimum of LP
    tokens, then the two amounts. *)
Definition readProvideLiquidity (payload : list bool)
    : option (Address * Z * Z * Z) :=
  '(from, l1) ← loadMaybeAddress payload;
  '(minLP, l2) ← loadCoins l1;
  '(a0, l3) ← loadCoins l2;
  '(a1, l4) ← loadCoins l3;
  match from, l4 with
  | Some from, [] => Some (from, a0, a1, minLP)
  | _, _ => None
  end.

(** The payload of [setFees]: the three rates, then the address. *)
Definition readSetFees (payload : list bool) : option (Z * Z * Z * Address) :=
  '(lp, l1) ← loadUint 8 payload;
  '(protocol, l2) ← loadUint 8 l1;
  '(ref, l3) ← loadUint 8 l2;
  '(a, l4) ← loadMaybeAddress l3;
  match a, l4 with
  | Some a, [] => Some (lp, protocol, ref, a)
  | _, _ => None
  end.

Definition example_address (n : Z) : Address := mkAddress 0 n.

Definition example_config : PoolConfig :=
  mkPoolConfig (example_address 11) (example_address 12)
               (example_address 13) (example_address 14) 1000.

End TonCell.

(** ** Fee schedule and fee collector of the pool contract

    The wrappers of the repository only encode the requests ([setFees],
    [collectFees], [swap]); the contract that handles them
    ([contracts/pool.fc], named by the compile configuration) is not
    among the sources.  Its operations are modelled from the
    specification. *)

Module PoolSpec.

Definition Identity : Type := Z.

(** The constants of the contract, as [README.md] lists them. *)
Definition FEE_DIVIDER : Z := 10000.
Definition MIN_FEE : Z := 0.
Definition MAX_FEE : Z := 200.
Definition REQUIRED_MIN_COLLECT_FEES : Z := 1000000.
Definition MAX_COINS : Z := 2 ^ 120 - 1.

(** Modelled from the spec: the error kinds of the missing pool contract
    (section 7). *)
Inductive Error : Type :=
| NoLiquidity | ZeroOutput | InvalidCaller | InsufficientGas
| FeeOutOfRange | InvalidToken | LowAmount | LowLiquidity
| WrongK | MathError | InvalidRecipient.

(** Modelled from the spec: the storage of the missing pool contract
    (data model, section 3).  The recipients held by the pool are
    present; only a request can carry an absent one. *)
Record Pool : Type := mkPool {
  reserve0 : Z;
  reserve1 : Z;
  totalSupplyLP : Z;
  collectedFees0_provider : Z;
  collectedFees1_provider : Z;
  collectedFees0_protocol : Z;
  collectedFees1_protocol : Z;
  lpFeeRate : Z;
  protocolFeeRate : Z;
  refFeeRate : Z;
  providerFeeAddress : Identity;
  protocolFeeAddress : Identity;
  isLocked : bool;
  authorizedSet : gset Z
}.

(** Modelled from the spec: the outcome of a mutating operation of the
    missing pool contract: done with its result, rejected
    because the pool is in the [Locked] state (section 4.4 names no
    error kind for that rejection), or failed with a typed error.  A
    rejection or a failure leaves the pool as it was. *)
Inductive Outcome (A : Type) : Type :=
| Done (a : A)
| Rejected
| Fail (e : Error).

Arguments Done {A} a.
Arguments Rejected {A}.
Arguments Fail {A} e.

(** *** Pricing formulas of section 4.1, as the specification words them *)

(** Modelled from the spec: ceiling division of the FixedPointMath
    helpers, whose code is missing. *)
Definition ceil_div (a b : Z) : Z := (a + b - 1) / b.

(** Modelled from the spec: step 2 of [compute_swap] (missing contract
    code), [ceil(baseOut * rate / FEE_DIVIDER)]. *)
Definition fee (baseOut rate : Z) : Z := ceil_div (baseOut * rate) FEE_DIVIDER.

(** Modelled from the spec: steps 2 and 3 of [compute_swap] (missing
    contract code), the amount delivered to the user out of [baseOut]. *)
Definition amountOut (baseOut lpRate protocolRate refRate : Z) (hasRef : bool) : Z :=
  let providerFee := fee baseOut lpRate in
  let protocolFee := fee baseOut protocolRate in
  let refFee := if hasRef then fee baseOut refRate else 0 in
  baseOut - providerFee - protocolFee - refFee.

(** Modelled from the spec: [isqrt] of the LiquidityEngine (missing
    contract code), the integer square root. *)
Definition isqrt (n : Z) : Z := Z.sqrt n.

(** *** set_fees (section 4.4) *)

(** Modelled from the spec: the bound check of the missing FeeSchedule,
    [MIN_FEE <= r <= MAX_FEE]. *)
Definition rate_in_range (r : Z) : bool := (MIN_FEE <=? r) && (r <=? MAX_FEE).

(** Modelled from the spec: the [set_fees] handler of the missing pool
    contract.  Lock status and authorization are validated first
    (section 2, PoolController), then each rate, then the recipients;
    the update applies all three rates and both addresses, or nothing. *)
Definition set_fees (p : Pool) (caller : Identity)
    (newLpFee newProtocolFee newRefFee : Z)
    (newProviderFeeAddr newProtocolFeeAddr : option Identity) : Outcome Pool :=
  if isLocked p then Rejected
  else if negb (bool_decide (caller ∈ authorizedSet p)) then Fail InvalidCaller
  else if negb (rate_in_range newLpFee && rate_in_range newProtocolFee
                && rate_in_range newRefFee) then Fail FeeOutOfRange
  else match newProviderFeeAddr, newProtocolFeeAddr with
       | Some provider, Some protocol =>
           Done (mkPool (reserve0 p) (reserve1 p) (totalSupplyLP p)
                        (collectedFees0_provider p) (collectedFees1_provider p)
                        (collectedFees0_protocol p) (collectedFees1_protocol p)
                        newLpFee newProtocolFee newRefFee
                        provider protocol
                        (isLocked p) (authorizedSet p))
       | _, _ => Fail InvalidRecipient
       end.

(** *** collect_fees (section 4.3) *)

Inductive Token : Type := Token0 | Token1.

Record Payout : Type := mkPayout {
  recipient : Identity;
  token : Token;
  amount : Z
}.

(** The specification leaves open whether the minimum applies to each
    accumulator or to the provider and protocol accumulators of a token
    taken together; both policies are modelled. *)
Inductive ThresholdPolicy : Type := PerAccumulator | Combined.

(** Modelled from the spec: the threshold test of the missing fee
    collector, for the two accumulators of one token. *)
Definition below_threshold (policy : ThresholdPolicy) (provider protocol : Z) : bool :=
  match policy with
  | PerAccumulator =>
      (provider <? REQUIRED_MIN_COLLECT_FEES) && (protocol <? REQUIRED_MIN_COLLECT_FEES)
  | Combined => provider + protocol <? REQUIRED_MIN_COLLECT_FEES
  end.

(** Modelled from the spec: the payouts of the missing fee collector for
    one token.  The collector reward is [floor(total * 0.001)], paid to
    the caller and taken out of the protocol share; a protocol share
    smaller than the reward cannot pay it ([None]: underflow, reported
    as [MathError]). *)
Definition token_payouts (p : Pool) (caller : Identity) (t : Token)
    (provider protocol : Z) : option (list Payout) :=
  let total := provider + protocol in
  let collectorReward := total / 1000 in
  if protocol <? collectorReward then None
  else Some [ mkPayout caller t collectorReward;
              mkPayout (providerFeeAddress p) t provider;
              mkPayout (protocolFeeAddress p) t (protocol - collectorReward) ].

(** Modelled from the spec: the accumulators of the missing fee collector
    are zeroed by a collection; nothing else changes. *)
Definition reset_accumulators (p : Pool) : Pool :=
  mkPool (reserve0 p) (reserve1 p) (totalSupplyLP p)
         0 0 0 0
         (lpFeeRate p) (protocolFeeRate p) (refFeeRate p)
         (providerFeeAddress p) (protocolFeeAddress p)
         (isLocked p) (authorizedSet p).

Inductive CollectResult : Type :=
| Collected (p : Pool) (payouts : list Payout)
| NoOp
| CollectRejected
| CollectFail (e : Error).

(** Modelled from the spec: the [collect_fees] handler of the missing
    pool contract.  [gasOk] is the outcome of the external resource
    check, evaluated before the state change is committed. *)
Definition collect_fees (policy : ThresholdPolicy) (p : Pool)
    (caller : Identity) (gasOk : bool) : CollectResult :=
  if isLocked p then CollectRejected
  else if below_threshold policy (collectedFees0_provider p) (collectedFees0_protocol p)
          && below_threshold policy (collectedFees1_provider p) (collectedFees1_protocol p)
  then NoOp
  else if negb gasOk then CollectFail InsufficientGas
  else match token_payouts p caller Token0
               (collectedFees0_provider p) (collectedFees0_protocol p),
             token_payouts p caller Token1
               (collectedFees1_provider p) (collectedFees1_protocol p) with
       | Some out0, Some out1 => Collected (reset_accumulators p) (out0 ++ out1)
       | _, _ => CollectFail MathError
       end.

(** A pool with fees accrued on both tokens; identity 1 is authorized. *)
Definition example_pool : Pool :=
  mkPool 1000000 1000000 1000000
         2000000 1500000 3000000 2500000
         30 5 10 8 9 false {[ 1 ]}.

End PoolSpec.

(** * Properties *)

(** ** Checked arithmetic *)

Lemma fits_iff z : fits z = true <-> INT_MIN <= z <= INT_MAX.
Proof. unfold fits. rewrite andb_true_iff, !Z.leb_le. tauto. Qed.

Lemma checked_fits z : INT_MIN <= z <= INT_MAX -> checked z = Ok z.
Proof. intros H. unfold checked. apply fits_iff in H. now rewrite H. Qed.

Lemma checked_Ok z r : checked z = Ok r -> r = z /\ INT_MIN <= z <= INT_MAX.
Proof.
  unfold checked. destruct (fits z) eqn:E; [|discriminate].
  intros [= <-]. split; [reflexivity | now apply fits_iff].
Qed.

Lemma div_Ok x y r :
  div x y = Ok r -> y <> 0 /\ r = x / y /\ INT_MIN <= x / y <= INT_MAX.
Proof.
  unfold div. destruct (Z.eqb_spec y 0); [discriminate|].
  intros H. apply checked_Ok in H. tauto.
Qed.

Lemma div_by_zero x : div x 0 = Throw DivisionByZero.
Proof. reflexivity. Qed.

(** ** The swap of the DeFi contract *)

Section DexSwap.
Import Dex.

(** *** Inversion and success of [swapAtoB] *)

Lemma swapAtoB_Ok st sender poolId amountA st' out :
  swapAtoB st sender poolId amountA = Ok (st', out) ->
  tokenA (pool_at st poolId) + amountA <> 0 /\
  st' = set_pools st (<[poolId := swapped (pool_at st poolId) amountA]> (pools st)) /\
  out = [(sender, amount_out (pool_at st poolId) amountA)].
Proof.
  unfold swapAtoB, mul, add, sub, swapped, amount_out.
  set (p := pool_at st poolId).
  destruct (checked (amountA * tokenB p)) as [num|] eqn:E1; [|discriminate].
  destruct (checked (tokenA p + amountA)) as [den|] eqn:E2; [|discriminate].
  apply checked_Ok in E1 as [-> _]. apply checked_Ok in E2 as [-> _].
  cbn [bind].
  destruct (div _ _) as [q|] eqn:E3; [|discriminate].
  apply div_Ok in E3 as (Hne & -> & _). cbn [bind].
  destruct (checked (tokenB p - _)) as [tB|] eqn:E4; [|discriminate].
  apply checked_Ok in E4 as [-> _]. cbn [bind].
  intros [= <- <-]. auto.
Qed.

Lemma swapAtoB_success st sender poolId amountA :
  let p := pool_at st poolId in
  INT_MIN <= amountA * tokenB p <= INT_MAX ->
  INT_MIN <= tokenA p + amountA <= INT_MAX ->
  tokenA p + amountA <> 0 ->
  INT_MIN <= amount_out p amountA <= INT_MAX ->
  INT_MIN <= tokenB p - amount_out p amountA <= INT_MAX ->
  swapAtoB st sender poolId amountA =
    Ok (set_pools st (<[poolId := swapped p amountA]> (pools st)),
        [(sender, amount_out p amountA)]).
Proof.
  intros p H1 H2 H3 H4 H5.
  unfold swapAtoB, mul, add, sub. fold p.
  rewrite (checked_fits _ H1). cbn [bind].
  rewrite (checked_fits _ H2). cbn [bind].
  unfold div. destruct (Z.eqb_spec (tokenA p + amountA) 0); [contradiction|].
  fold (amount_out p amountA).
  rewrite (checked_fits _ H4). cbn [bind].
  rewrite (checked_fits _ H5). cbn [bind].
  reflexivity.
Qed.

Lemma swapAtoB_Throw st sender poolId amountA e :
  swapAtoB st sender poolId amountA = Throw e ->
  let p := pool_at st poolId in
  (e = DivisionByZero /\ tokenA p + amountA = 0) \/
  (e = IntegerOverflow /\
   (fits (amountA * tokenB p) = false \/ fits (tokenA p + amountA) = false \/
    fits (amount_out p amountA) = false \/
    fits (tokenB p - amount_out p amountA) = false)).
Proof.
  unfold swapAtoB, mul, add, sub, div, amount_out, checked.
  set (p := pool_at st poolId). cbv zeta.
  destruct (fits (amountA * tokenB p)) eqn:E1; cbn [bind];
    [|intros [= <-]; auto].
  destruct (fits (tokenA p + amountA)) eqn:E2; cbn [bind];
    [|intros [= <-]; auto].
  destruct (Z.eqb_spec (tokenA p + amountA) 0) as [E0|E0]; cbn [bind];
    [intros [= <-]; auto|].
  destruct (fits (amountA * tokenB p / (tokenA p + amountA))) eqn:E3; cbn [bind];
    [|intros [= <-]; auto 6].
  destruct (fits (tokenB p - _)) eqn:E4; cbn [bind];
    [discriminate|intros [= <-]; auto 6].
Qed.

Lemma pool_at_insert st poolId p :
  pool_at (set_pools st (<[poolId := p]> (pools st))) poolId = p.
Proof. unfold pool_at. cbn. now rewrite lookup_insert_eq. Qed.

Lemma fits_false z : fits z = false -> z < INT_MIN \/ INT_MAX < z.
Proof.
  intros H.
  destruct (Z_lt_le_dec z INT_MIN) as [|H1]; [now left|].
  destruct (Z_lt_le_dec INT_MAX z) as [|H2]; [now right|].
  assert (fits z = true) by (apply fits_iff; lia). congruence.
Qed.

(** The output lies between 0 and the output reserve as soon as the
    operands are not negative and the divisor is positive. *)
Lemma amount_out_bounds p amountA :
  0 <= tokenB p -> 0 <= tokenA p -> 0 <= amountA -> 0 < tokenA p + amountA ->
  0 <= amount_out p amountA <= tokenB p /\
  amount_out p amountA <= amountA * tokenB p.
Proof.
  intros HB HA Ha Hd. unfold amount_out.
  assert (0 <= amountA * tokenB p) by nia.
  split; [split|].
  - apply Z.div_pos; lia.
  - apply Z.div_le_upper_bound; [lia|nia].
  - apply Z.div_le_upper_bound; [lia|nia].
Qed.

Lemma INT_MIN_neg : INT_MIN < 0.
Proof. reflexivity. Qed.

Lemma INT_MAX_pos : 0 < INT_MAX.
Proof. reflexivity. Qed.

(** For operands that are not negative the swap can only abort on the
    two sums and products that grow: the product [amountA * tokenB] and
    the sum [tokenA + amountA]. *)
Lemma swapAtoB_nonneg_outcome st sender poolId amountA :
  let p := pool_at st poolId in
  0 <= tokenA p -> 0 <= tokenB p <= INT_MAX -> 0 <= amountA ->
  0 < tokenA p + amountA ->
  match swapAtoB st sender poolId amountA with
  | Ok (st', out) =>
      st' = set_pools st (<[poolId := swapped p amountA]> (pools st)) /\
      out = [(sender, amount_out p amountA)]
  | Throw e =>
      e = IntegerOverflow /\
      (INT_MAX < amountA * tokenB p \/ INT_MAX < tokenA p + amountA)
  end.
Proof.
  intros p HA HB Ha Hd.
  destruct (amount_out_bounds p amountA) as [Hq Hq']; try lia.
  pose proof INT_MIN_neg. pose proof INT_MAX_pos.
  destruct (swapAtoB st sender poolId amountA) as [[st' out]|e] eqn:E.
  - apply swapAtoB_Ok in E as (_ & -> & ->). auto.
  - apply swapAtoB_Throw in E. fold p in E.
    destruct E as [[_ E]|[-> E]]; [lia|]. split; [reflexivity|].
    assert (0 <= amountA * tokenB p) by nia.
    destruct E as [E|[E|[E|E]]]; apply fits_false in E.
    + right + left; lia.
    + right; lia.
    + destruct (Z_lt_le_dec INT_MAX (amountA * tokenB p)); [now left|lia].
    + lia.
Qed.

(** C1. For every pool with [tokenA > 0] and [tokenB > 0] and every
    [amountA > 0], a swap that executes leaves reserves whose product is
    at least the product before the swap.  The swap executes unless
    [amountA * tokenB] or [tokenA + amountA] leaves the 257-bit range of
    the contract's integers, in which case the transaction aborts and no
    reserve is written. *)
Theorem swapAtoB_product_nondecreasing st sender poolId amountA :
  0 < tokenA (pool_at st poolId) ->
  0 < tokenB (pool_at st poolId) ->
  0 < amountA ->
  match swapAtoB st sender poolId amountA with
  | Ok (st', _) =>
      product (pool_at st poolId) <= product (pool_at st' poolId)
  | Throw e =>
      e = IntegerOverflow /\
      (INT_MAX < amountA * tokenB (pool_at st poolId) \/
       INT_MAX < tokenA (pool_at st poolId) + amountA)
  end.
Proof.
  intros HA HB Ha.
  destruct (swapAtoB st sender poolId amountA) as [[st' out]|e] eqn:E.
  - apply swapAtoB_Ok in E as (_ & -> & _).
    rewrite pool_at_insert. unfold product, swapped, amount_out. cbn.
    set (p := pool_at st poolId) in *.
    pose proof (Z.mul_div_le (amountA * tokenB p) (tokenA p + amountA)).
    nia.
  - destruct (Z_lt_le_dec INT_MAX (tokenB (pool_at st poolId))) as [Hb|Hb].
    + apply swapAtoB_Throw in E. cbv zeta in E.
      destruct E as [[_ E]|[-> _]]; [lia|].
      split; [reflexivity|]. left. nia.
    + pose proof (swapAtoB_nonneg_outcome st sender poolId amountA) as H.
      cbv zeta in H. rewrite E in H. apply H; lia.
Qed.

Lemma swapAtoB_product_nondecreasing_witness :
  0 < tokenA (pool_at st_1M 1) /\
  0 < tokenB (pool_at st_1M 1) /\
  0 < 1000 /\
  match swapAtoB st_1M 7 1 1000 with
  | Ok (st', _) => product (pool_at st_1M 1) <= product (pool_at st' 1)
  | Throw e =>
      e = IntegerOverflow /\
      (INT_MAX < 1000 * tokenB (pool_at st_1M 1) \/
       INT_MAX < tokenA (pool_at st_1M 1) + 1000)
  end.
Proof.
  split; [|split; [|split]]; try (vm_compute; reflexivity).
  apply (swapAtoB_product_nondecreasing st_1M 7 1 1000);
    vm_compute; reflexivity.
Defined.

Example createPool_1M :
  createPool initial_state 1000000 1000000 = Ok (st_1M, 1).
Proof. vm_compute. reflexivity. Qed.

Example swapAtoB_1M_1000 :
  swapAtoB st_1M 7 1 1000 =
    Ok (one_pool (mkPool 2000000 1001000 999001 ∅), [(7, 999)]).
Proof. vm_compute. reflexivity. Qed.

Example swapAtoB_overflow :
  swapAtoB (one_pool (mkPool 0 1 (2 ^ 200) ∅)) 7 1 (2 ^ 200) = Throw IntegerOverflow.
Proof. vm_compute. reflexivity. Qed.

(** C2. A swap computes [baseOut = floor(amountIn * reserveOut /
    (reserveIn + amountIn))] -- the quotient [q] with
    [q * d <= n < (q + 1) * d], equal to the truncated quotient when the
    numerator is not negative -- sends it to the caller, and on success
    writes [reserveIn + amountIn] and [reserveOut - baseOut]. *)
Theorem swapAtoB_base_output st sender poolId amountIn st' out :
  swapAtoB st sender poolId amountIn = Ok (st', out) ->
  let reserveIn := tokenA (pool_at st poolId) in
  let reserveOut := tokenB (pool_at st poolId) in
  let baseOut := (amountIn * reserveOut) / (reserveIn + amountIn) in
  out = [(sender, baseOut)] /\
  tokenA (pool_at st' poolId) = reserveIn + amountIn /\
  tokenB (pool_at st' poolId) = reserveOut - baseOut /\
  (0 < reserveIn + amountIn ->
   baseOut * (reserveIn + amountIn) <= amountIn * reserveOut
     < (baseOut + 1) * (reserveIn + amountIn)) /\
  (0 < reserveIn + amountIn -> 0 <= amountIn * reserveOut ->
   baseOut = Z.quot (amountIn * reserveOut) (reserveIn + amountIn)).
Proof.
  intros E. cbv zeta.
  apply swapAtoB_Ok in E as (_ & -> & ->).
  rewrite pool_at_insert. unfold swapped, amount_out. cbn.
  set (p := pool_at st poolId).
  repeat split; try reflexivity.
  - pose proof (Z.mul_div_le (amountIn * tokenB p) _ H). lia.
  - pose proof (Z.mul_succ_div_gt (amountIn * tokenB p) _ H). lia.
  - intros Hd Hn. symmetry. now apply Z.quot_div_nonneg.
Qed.

Lemma swapAtoB_base_output_witness :
  swapAtoB st_1M 7 1 1000 =
    Ok (one_pool (mkPool 2000000 1001000 999001 ∅), [(7, 999)]) /\
  tokenA (pool_at (one_pool (mkPool 2000000 1001000 999001 ∅)) 1) = 1001000 /\
  tokenB (pool_at (one_pool (mkPool 2000000 1001000 999001 ∅)) 1) = 999001.
Proof.
  assert (E : swapAtoB st_1M 7 1 1000 =
    Ok (one_pool (mkPool 2000000 1001000 999001 ∅), [(7, 999)]))
    by (vm_compute; reflexivity).
  split; [exact E|].
  destruct (swapAtoB_base_output _ _ _ _ _ _ E) as (_ & HA & HB & _).
  split; [exact HA | exact HB].
Defined.

(** In the range of token amounts ([0 .. 2^120 - 1]) a swap with a
    positive divisor always executes. *)
Lemma swapAtoB_succeeds_in_range st sender poolId amountA :
  let p := pool_at st poolId in
  0 <= tokenA p <= PoolSpec.MAX_COINS ->
  0 <= tokenB p <= PoolSpec.MAX_COINS ->
  0 <= amountA <= PoolSpec.MAX_COINS ->
  0 < tokenA p + amountA ->
  swapAtoB st sender poolId amountA =
    Ok (set_pools st (<[poolId := swapped p amountA]> (pools st)),
        [(sender, amount_out p amountA)]).
Proof.
  intros p HA HB Ha Hd.
  assert (HM : PoolSpec.MAX_COINS * PoolSpec.MAX_COINS <= INT_MAX)
    by (vm_compute; discriminate).
  assert (HM' : 0 < PoolSpec.MAX_COINS) by reflexivity.
  assert (HM2 : 2 * PoolSpec.MAX_COINS <= INT_MAX)
    by (vm_compute; discriminate).
  assert (Hn : amountA * tokenB p <= PoolSpec.MAX_COINS * PoolSpec.MAX_COINS)
    by (apply Z.mul_le_mono_nonneg; lia).
  assert (H : 0 <= tokenB p <= INT_MAX) by lia.
  pose proof (swapAtoB_nonneg_outcome st sender poolId amountA
                (proj1 HA) H (proj1 Ha) Hd) as Hs.
  fold p in Hs.
  destruct (swapAtoB st sender poolId amountA) as [[st' out]|e].
  - destruct Hs as [-> ->]. reflexivity.
  - destruct Hs as [_ [Hs|Hs]]; lia.
Qed.

(** C9. With [tokenA >= 0], [tokenB >= 0], [amountA >= 0] and
    [tokenA + amountA > 0], the output of [swapAtoB] is
    [floor(amountA * tokenB / (tokenA + amountA))], at most [tokenB], so
    the reserve written back is not negative; with [tokenA + amountA = 0]
    nothing guards the division and the swap aborts on it. *)
Theorem swapAtoB_output_bounded st sender poolId amountA :
  0 <= tokenA (pool_at st poolId) ->
  0 <= tokenB (pool_at st poolId) <= INT_MAX ->
  0 <= amountA ->
  (0 < tokenA (pool_at st poolId) + amountA ->
   amount_out (pool_at st poolId) amountA <= tokenB (pool_at st poolId) /\
   match swapAtoB st sender poolId amountA with
   | Ok (st', out) =>
       out = [(sender, (amountA * tokenB (pool_at st poolId))
                         / (tokenA (pool_at st poolId) + amountA))] /\
       0 <= tokenB (pool_at st' poolId)
   | Throw e =>
       e = IntegerOverflow /\
       (INT_MAX < amountA * tokenB (pool_at st poolId) \/
        INT_MAX < tokenA (pool_at st poolId) + amountA)
   end) /\
  (tokenA (pool_at st poolId) + amountA = 0 ->
   swapAtoB st sender poolId amountA = Throw DivisionByZero).
Proof.
  intros HA HB Ha. split.
  - intros Hd.
    destruct (amount_out_bounds (pool_at st poolId) amountA) as [Hq _]; try lia.
    split; [lia|].
    pose proof (swapAtoB_nonneg_outcome st sender poolId amountA HA HB Ha Hd)
      as H.
    destruct (swapAtoB st sender poolId amountA) as [[st' out]|e].
    + destruct H as [-> ->]. split; [reflexivity|].
      rewrite pool_at_insert. cbn. lia.
    + exact H.
  - intros H0. assert (tokenA (pool_at st poolId) = 0) as E1 by lia.
    assert (amountA = 0) as -> by lia.
    unfold swapAtoB, mul, add. rewrite E1. reflexivity.
Qed.

Lemma swapAtoB_output_bounded_witness :
  0 <= tokenA (pool_at st_zeroA 1) /\
  (0 <= tokenB (pool_at st_zeroA 1) <= INT_MAX) /\
  0 <= 0 /\
  swapAtoB st_zeroA 7 1 0 = Throw DivisionByZero.
Proof.
  assert (H1 : 0 <= tokenA (pool_at st_zeroA 1)) by (vm_compute; discriminate).
  assert (H2 : 0 <= tokenB (pool_at st_zeroA 1) <= INT_MAX)
    by (split; vm_compute; discriminate).
  assert (H3 : 0 <= 0) by lia.
  split; [exact H1|]. split; [exact H2|]. split; [exact H3|].
  apply (swapAtoB_output_bounded st_zeroA 7 1 0 H1 H2 H3).
  vm_compute. reflexivity.
Defined.

Example swapAtoB_drains_output_reserve :
  swapAtoB st_zeroA 7 1 10 = Ok (one_pool (mkPool 1000 10 0 ∅), [(7, 1000)]).
Proof. vm_compute. reflexivity. Qed.

(** C10. A swap that executes changes only [tokenA] and [tokenB] of the
    selected pool: its [totalLiquidity] and [liquidityProviders], every
    other pool, and every other global variable are as before. *)
Theorem swapAtoB_frame st sender poolId amountA st' out :
  swapAtoB st sender poolId amountA = Ok (st', out) ->
  totalLiquidity (pool_at st' poolId) = totalLiquidity (pool_at st poolId) /\
  liquidityProviders (pool_at st' poolId) = liquidityProviders (pool_at st poolId) /\
  (forall j, j <> poolId -> pools st' !! j = pools st !! j) /\
  stakers st' = stakers st /\ loans st' = loans st /\
  communityDAO st' = communityDAO st /\ poolCount st' = poolCount st /\
  rewardPerBlock st' = rewardPerBlock st /\
  loanInterestRate st' = loanInterestRate st /\
  loanDuration st' = loanDuration st.
Proof.
  intros E. apply swapAtoB_Ok in E as (_ & -> & _).
  rewrite pool_at_insert. cbn.
  repeat split; try reflexivity.
  intros j Hj. now rewrite lookup_insert_ne.
Qed.

Lemma swapAtoB_frame_witness :
  swapAtoB st_1M 7 1 1000 =
    Ok (one_pool (mkPool 2000000 1001000 999001 ∅), [(7, 999)]) /\
  totalLiquidity (pool_at (one_pool (mkPool 2000000 1001000 999001 ∅)) 1) =
    totalLiquidity (pool_at st_1M 1).
Proof.
  assert (E : swapAtoB st_1M 7 1 1000 =
    Ok (one_pool (mkPool 2000000 1001000 999001 ∅), [(7, 999)]))
    by (vm_compute; reflexivity).
  split; [exact E|].
  exact (proj1 (swapAtoB_frame _ _ _ _ _ _ E)).
Defined.

(** *** Fees *)

(** At the scenario of the specification (reserves of one million, rates
    30, 5 and 0, input 1000) the fee formulas would leave the user
    [baseOut - 3 - 1]; [swapAtoB] sends the whole [baseOut], which is
    not less than [baseOut] although two rates are positive. *)
Lemma swapAtoB_fee_counterexample :
  swapAtoB st_1M 7 1 1000 =
    Ok (one_pool (mkPool 2000000 1001000 999001 ∅), [(7, 999)]) /\
  amount_out (pool_at st_1M 1) 1000 = 999 /\
  PoolSpec.fee 999 30 = 3 /\ PoolSpec.fee 999 5 = 1 /\
  PoolSpec.amountOut 999 30 5 0 false = 995 /\
  999 <> PoolSpec.amountOut 999 30 5 0 false /\
  ~ 999 < 999.
Proof. repeat split; try (vm_compute; reflexivity); vm_compute; discriminate. Qed.

(** C3, as the code has it.  [swapAtoB] reads no fee rate and charges no
    provider, protocol or referral fee: the caller is sent exactly
    [baseOut = floor(amountA * tokenB / (tokenA + amountA))], the output
    reserve decreases by exactly the amount sent, and there is a single
    transfer (no referral payout). *)
Theorem swapAtoB_sends_base_output st sender poolId amountA st' out :
  swapAtoB st sender poolId amountA = Ok (st', out) ->
  exists sent,
    out = [(sender, sent)] /\
    sent = (amountA * tokenB (pool_at st poolId))
             / (tokenA (pool_at st poolId) + amountA) /\
    tokenB (pool_at st poolId) - tokenB (pool_at st' poolId) = sent.
Proof.
  intros E. apply swapAtoB_Ok in E as (_ & -> & ->).
  eexists. split; [reflexivity|]. split; [reflexivity|].
  rewrite pool_at_insert. unfold swapped, amount_out. cbn. lia.
Qed.

Lemma swapAtoB_sends_base_output_witness :
  swapAtoB st_1M 7 1 1000 =
    Ok (one_pool (mkPool 2000000 1001000 999001 ∅), [(7, 999)]) /\
  exists sent,
    [(7, 999)] = [(7, sent)] /\
    sent = (1000 * tokenB (pool_at st_1M 1)) / (tokenA (pool_at st_1M 1) + 1000) /\
    tokenB (pool_at st_1M 1)
      - tokenB (pool_at (one_pool (mkPool 2000000 1001000 999001 ∅)) 1) = sent.
Proof.
  assert (E : swapAtoB st_1M 7 1 1000 =
    Ok (one_pool (mkPool 2000000 1001000 999001 ∅), [(7, 999)]))
    by (vm_compute; reflexivity).
  split; [exact E|].
  exact (swapAtoB_sends_base_output _ _ _ _ _ _ E).
Defined.

(** *** Guards *)

(** A swap of nothing against a funded pool executes and sends 0; a swap
    against an input reserve of zero executes, takes the whole output
    reserve and writes the pool. *)
Lemma swapAtoB_guard_counterexample :
  swapAtoB st_1M 7 1 0 = Ok (st_1M, [(7, 0)]) /\
  tokenA (pool_at st_zeroA 1) = 0 /\
  swapAtoB st_zeroA 7 1 10 = Ok (one_pool (mkPool 1000 10 0 ∅), [(7, 1000)]) /\
  one_pool (mkPool 1000 10 0 ∅) <> st_zeroA.
Proof.
  repeat split; try (vm_compute; reflexivity).
  intros H. apply (f_equal (fun s => tokenA (pool_at s 1))) in H.
  vm_compute in H. discriminate.
Qed.

Lemma set_pools_same st poolId p :
  pools st !! poolId = Some p ->
  set_pools st (<[poolId := p]> (pools st)) = st.
Proof.
  intros H. rewrite insert_id by exact H. now destruct st.
Qed.

(** C4, as the code has it.  [swapAtoB] has no amount or liquidity guard
    and raises no error of its own.  With [amountA = 0] and a non-zero
    input reserve it executes, leaves the state as it is and sends 0;
    with an empty output reserve and [amountA > 0] it executes, adds
    [amountA] to [tokenA] and sends 0; with an empty input reserve and
    [amountA > 0] it executes and sends the whole output reserve.  It
    aborts only
    on arithmetic: the division by zero when [tokenA + amountA = 0], or
    a result outside the integer range; an abort writes nothing. *)
Theorem swapAtoB_has_no_guard st sender poolId amountA :
  INT_MIN <= tokenA (pool_at st poolId) <= INT_MAX ->
  INT_MIN <= tokenB (pool_at st poolId) <= INT_MAX ->
  INT_MIN <= amountA <= INT_MAX ->
  (amountA = 0 -> tokenA (pool_at st poolId) <> 0 ->
   swapAtoB st sender poolId amountA = Ok (st, [(sender, 0)])) /\
  (tokenB (pool_at st poolId) = 0 -> 0 < amountA ->
   0 <= tokenA (pool_at st poolId) ->
   tokenA (pool_at st poolId) + amountA <= INT_MAX ->
   exists st',
     swapAtoB st sender poolId amountA = Ok (st', [(sender, 0)]) /\
     tokenA (pool_at st' poolId) = tokenA (pool_at st poolId) + amountA /\
     tokenB (pool_at st' poolId) = 0) /\
  (tokenA (pool_at st poolId) = 0 -> 0 < amountA ->
   0 <= tokenB (pool_at st poolId) ->
   amountA * tokenB (pool_at st poolId) <= INT_MAX ->
   exists st',
     swapAtoB st sender poolId amountA =
       Ok (st', [(sender, tokenB (pool_at st poolId))]) /\
     tokenA (pool_at st' poolId) = amountA /\
     tokenB (pool_at st' poolId) = 0) /\
  (forall e, swapAtoB st sender poolId amountA = Throw e ->
     (e = DivisionByZero /\ tokenA (pool_at st poolId) + amountA = 0) \/
     e = IntegerOverflow).
Proof.
  intros HA HB Ha.
  pose proof INT_MIN_neg. pose proof INT_MAX_pos.
  split; [|split; [|split]].
  - intros -> Hne.
    assert (Hp : pools st !! poolId = Some (pool_at st poolId)).
    { unfold pool_at in *. destruct (pools st !! poolId); [reflexivity|].
      cbn in Hne. congruence. }
    rewrite swapAtoB_success; rewrite ?Z.mul_0_l, ?Z.add_0_r; try lia.
    + unfold swapped, amount_out.
      rewrite Z.mul_0_l, Z.add_0_r, Z.div_0_l, Z.sub_0_r by exact Hne.
      rewrite set_pools_same; [reflexivity|].
      rewrite Hp. now destruct (pool_at st poolId).
    + unfold amount_out. rewrite Z.mul_0_l, Z.div_0_l; lia.
    + unfold amount_out. rewrite Z.mul_0_l, Z.div_0_l; lia.
  - intros HB0 Hpos HA0 Hsum.
    assert (Hq : amount_out (pool_at st poolId) amountA = 0).
    { unfold amount_out. rewrite HB0, Z.mul_0_r. apply Z.div_0_l. lia. }
    eexists. split; [|split].
    + rewrite swapAtoB_success; rewrite ?Hq, ?HB0, ?Z.mul_0_r; try lia.
      reflexivity.
    + rewrite pool_at_insert. reflexivity.
    + rewrite pool_at_insert. cbn. rewrite Hq, HB0. reflexivity.
  - intros HA0 Hpos HB0 Hprod.
    assert (Hq : amount_out (pool_at st poolId) amountA = tokenB (pool_at st poolId)).
    { unfold amount_out. rewrite HA0, Z.add_0_l, Z.mul_comm. apply Z.div_mul. lia. }
    eexists. split; [|split].
    + rewrite swapAtoB_success; rewrite ?Hq, ?HA0; try lia. reflexivity.
    + rewrite pool_at_insert. cbn. lia.
    + rewrite pool_at_insert. cbn. rewrite Hq. lia.
  - intros e E. apply swapAtoB_Throw in E. cbv zeta in E.
    destruct E as [E|[E _]]; [left; exact E | right; exact E].
Qed.

Lemma swapAtoB_has_no_guard_witness :
  (INT_MIN <= tokenA (pool_at st_1M 1) <= INT_MAX) /\
  (INT_MIN <= tokenB (pool_at st_1M 1) <= INT_MAX) /\
  swapAtoB st_1M 7 1 0 = Ok (st_1M, [(7, 0)]).
Proof.
  assert (H1 : INT_MIN <= tokenA (pool_at st_1M 1) <= INT_MAX)
    by (split; vm_compute; discriminate).
  assert (H2 : INT_MIN <= tokenB (pool_at st_1M 1) <= INT_MAX)
    by (split; vm_compute; discriminate).
  assert (H3 : INT_MIN <= 0 <= INT_MAX) by (split; vm_compute; discriminate).
  split; [exact H1|]. split; [exact H2|].
  apply (proj1 (swapAtoB_has_no_guard st_1M 7 1 0 H1 H2 H3)).
  - reflexivity.
  - vm_compute. discriminate.
Defined.

End DexSwap.

(** ** Liquidity of the DeFi contract *)

Section DexLiquidity.
Import Dex.

Lemma createPool_Ok st amountA amountB st' id :
  createPool st amountA amountB = Ok (st', id) ->
  id = poolCount st + 1 /\
  st' = set_pools (set_poolCount st id)
          (<[id := mkPool (amountA + amountB) amountA amountB ∅]> (pools st)).
Proof.
  unfold createPool, add.
  destruct (checked (poolCount st + 1)) as [n|] eqn:E1; [|discriminate].
  apply checked_Ok in E1 as [-> _]. cbn [bind].
  destruct (checked (amountA + amountB)) as [l|] eqn:E2; [|discriminate].
  apply checked_Ok in E2 as [-> _]. cbn [bind].
  intros [= <- <-]. auto.
Qed.

Lemma addLiquidity_Ok st sender poolId amountA amountB st' :
  addLiquidity st sender poolId amountA amountB = Ok st' ->
  let p := pool_at st poolId in
  st' = set_pools st
          (<[poolId := mkPool (totalLiquidity p + (amountA + amountB))
                              (tokenA p + amountA) (tokenB p + amountB)
                              (<[sender := balance_of (liquidityProviders p) sender
                                             + (amountA + amountB)]>
                                 (liquidityProviders p))]> (pools st)).
Proof.
  unfold addLiquidity, add. set (p := pool_at st poolId). cbv zeta.
  repeat match goal with
  | |- context [checked ?z] =>
      let E := fresh "E" in
      destruct (checked z) eqn:E; [|discriminate];
      apply checked_Ok in E as [-> _]; cbn [bind]
  end.
  now intros [= <-].
Qed.

(** The first deposit of 100000 and 400000 creates a pool whose
    liquidity is 500000, not [isqrt(100000 * 400000) = 200000]. *)
Lemma first_deposit_counterexample :
  createPool initial_state 100000 400000 = Ok (st_first_deposit, 1) /\
  totalLiquidity (pool_at st_first_deposit 1) = 500000 /\
  PoolSpec.isqrt (100000 * 400000) = 200000 /\
  totalLiquidity (pool_at st_first_deposit 1) <> PoolSpec.isqrt (100000 * 400000).
Proof. repeat split; try (vm_compute; reflexivity); vm_compute; discriminate. Qed.

(** C5, as the code has it.  A first deposit mints the sum of the two
    amounts: [createPool(amountA, amountB)] creates the pool with
    [totalLiquidity = amountA + amountB], and [addLiquidity] into a pool
    whose [totalLiquidity] is 0 leaves [totalLiquidity = amountA +
    amountB] and credits the caller with [amountA + amountB]. *)
Theorem first_deposit_mints_sum st sender poolId amountA amountB :
  (forall st' id,
     createPool st amountA amountB = Ok (st', id) ->
     totalLiquidity (pool_at st' id) = amountA + amountB) /\
  (forall st',
     totalLiquidity (pool_at st poolId) = 0 ->
     addLiquidity st sender poolId amountA amountB = Ok st' ->
     totalLiquidity (pool_at st' poolId) = amountA + amountB /\
     balance_of (liquidityProviders (pool_at st' poolId)) sender =
       balance_of (liquidityProviders (pool_at st poolId)) sender
       + (amountA + amountB)).
Proof.
  split.
  - intros st' id E. apply createPool_Ok in E as [_ ->].
    unfold pool_at. cbn. now rewrite lookup_insert_eq.
  - intros st' H0 E. apply addLiquidity_Ok in E. cbv zeta in E. subst st'.
    rewrite pool_at_insert. cbn. rewrite H0.
    split; [lia|]. unfold balance_of at 1. now rewrite lookup_insert_eq.
Qed.

Lemma first_deposit_mints_sum_witness :
  createPool initial_state 100000 400000 = Ok (st_first_deposit, 1) /\
  totalLiquidity (pool_at st_first_deposit 1) = 100000 + 400000.
Proof.
  assert (E : createPool initial_state 100000 400000 = Ok (st_first_deposit, 1))
    by (vm_compute; reflexivity).
  split; [exact E|].
  exact (proj1 (first_deposit_mints_sum initial_state 7 1 100000 400000) _ _ E).
Defined.

Example addLiquidity_first_deposit :
  addLiquidity initial_state 7 1 100000 400000 =
    Ok (set_pools initial_state
          {[ 1 := mkPool 500000 100000 400000 {[ 7 := 500000 ]} ]}).
Proof. vm_compute. reflexivity. Qed.

End DexLiquidity.

(** ** Fee schedule and fee collector *)

Section FeeSchedule.
Import PoolSpec.

Lemma rate_in_range_iff r : rate_in_range r = true <-> 0 <= r <= 200.
Proof.
  unfold rate_in_range, MIN_FEE, MAX_FEE.
  rewrite andb_true_iff, !Z.leb_le. tauto.
Qed.

Lemma set_fees_Done p caller lp proto ref provAddr protoAddr p' :
  set_fees p caller lp proto ref provAddr protoAddr = Done p' ->
  isLocked p = false /\ caller ∈ authorizedSet p /\
  rate_in_range lp = true /\ rate_in_range proto = true /\
  rate_in_range ref = true /\
  lpFeeRate p' = lp /\ protocolFeeRate p' = proto /\ refFeeRate p' = ref.
Proof.
  unfold set_fees.
  destruct (isLocked p); [discriminate|].
  case_bool_decide; cbn [negb]; [|discriminate].
  destruct (rate_in_range lp); cbn; [|discriminate].
  destruct (rate_in_range proto); cbn; [|discriminate].
  destruct (rate_in_range ref); cbn; [|discriminate].
  destruct provAddr, protoAddr; try discriminate.
  intros [= <-]. cbn. auto 10.
Qed.

(** C6.  A [set_fees] request with a rate outside [0, 200] never
    succeeds, and from an authorized caller on an unlocked pool it fails
    with [FeeOutOfRange]; after a successful [set_fees] the three stored
    rates are the requested ones and each lies in [0, 200]. *)
Theorem set_fees_validates_rates p caller lp proto ref provAddr protoAddr :
  ((lp < 0 \/ 200 < lp \/ proto < 0 \/ 200 < proto \/ ref < 0 \/ 200 < ref) ->
   (forall p', set_fees p caller lp proto ref provAddr protoAddr <> Done p') /\
   (isLocked p = false -> caller ∈ authorizedSet p ->
    set_fees p caller lp proto ref provAddr protoAddr = Fail FeeOutOfRange)) /\
  (forall p',
     set_fees p caller lp proto ref provAddr protoAddr = Done p' ->
     lpFeeRate p' = lp /\ protocolFeeRate p' = proto /\ refFeeRate p' = ref /\
     0 <= lpFeeRate p' <= 200 /\ 0 <= protocolFeeRate p' <= 200 /\
     0 <= refFeeRate p' <= 200).
Proof.
  split.
  - intros Hout. split.
    + intros p' E. apply set_fees_Done in E as (_ & _ & H1 & H2 & H3 & _).
      apply rate_in_range_iff in H1, H2, H3. lia.
    + intros Hl Hc. unfold set_fees. rewrite Hl.
      rewrite bool_decide_eq_true_2 by exact Hc. cbn [negb].
      assert (rate_in_range lp && rate_in_range proto && rate_in_range ref = false)
        as ->; [|reflexivity].
      apply not_true_is_false. rewrite !andb_true_iff, !rate_in_range_iff. lia.
  - intros p' E. apply set_fees_Done in E as (_ & _ & H1 & H2 & H3 & -> & -> & ->).
    apply rate_in_range_iff in H1, H2, H3. auto 10.
Qed.

Lemma set_fees_validates_rates_witness :
  200 < 201 /\
  set_fees example_pool 1 201 5 10 (Some 8) (Some 9) = Fail FeeOutOfRange /\
  set_fees example_pool 1 200 0 10 (Some 8) (Some 9) =
    Done (mkPool 1000000 1000000 1000000 2000000 1500000 3000000 2500000
                 200 0 10 8 9 false {[ 1 ]}) /\
  0 <= 200 <= 200 /\ 0 <= 0 <= 200 /\ 0 <= 10 <= 200.
Proof.
  assert (H : 200 < 201) by lia.
  assert (E : set_fees example_pool 1 200 0 10 (Some 8) (Some 9) =
    Done (mkPool 1000000 1000000 1000000 2000000 1500000 3000000 2500000
                 200 0 10 8 9 false {[ 1 ]})) by (vm_compute; reflexivity).
  split; [exact H|]. split; [|split; [exact E|]].
  - apply (proj1 (set_fees_validates_rates example_pool 1 201 5 10 (Some 8) (Some 9))).
    + right. left. exact H.
    + reflexivity.
    + vm_compute. reflexivity.
  - apply (proj2 (set_fees_validates_rates example_pool 1 200 0 10 (Some 8) (Some 9)))
      in E.
    cbn in E. tauto.
Defined.

End FeeSchedule.

Section FeeCollector.
Import PoolSpec.

Lemma below_threshold_zero policy : below_threshold policy 0 0 = true.
Proof. now destruct policy. Qed.

Lemma collect_fees_Collected policy p caller gasOk p' payouts :
  collect_fees policy p caller gasOk = Collected p' payouts ->
  isLocked p = false /\ p' = reset_accumulators p.
Proof.
  unfold collect_fees.
  destruct (isLocked p); [discriminate|].
  destruct (_ && _); [discriminate|].
  destruct gasOk; cbn [negb]; [|discriminate].
  destruct (token_payouts _ _ Token0 _ _); [|discriminate].
  destruct (token_payouts _ _ Token1 _ _); [|discriminate].
  intros [= <- _]. auto.
Qed.

(** C8.  After a successful [collect_fees] the fee accumulators are
    zero, hence below the minimum under either threshold policy, and a
    second [collect_fees] with no operation in between is a no-op: it
    returns no new state and no payout, whoever calls it and whatever
    the resource check says. *)
Theorem collect_fees_twice_is_noop policy p caller gasOk p' payouts :
  collect_fees policy p caller gasOk = Collected p' payouts ->
  collectedFees0_provider p' = 0 /\ collectedFees0_protocol p' = 0 /\
  collectedFees1_provider p' = 0 /\ collectedFees1_protocol p' = 0 /\
  forall caller2 gasOk2, collect_fees policy p' caller2 gasOk2 = NoOp.
Proof.
  intros E. apply collect_fees_Collected in E as [Hl ->].
  cbn. repeat split; try reflexivity.
  intros caller2 gasOk2. unfold collect_fees. cbn. rewrite Hl.
  now rewrite below_threshold_zero.
Qed.

Lemma collect_fees_twice_is_noop_witness :
  collect_fees Combined example_pool 1 true =
    Collected (reset_accumulators example_pool)
      [ mkPayout 1 Token0 5000; mkPayout 8 Token0 2000000;
        mkPayout 9 Token0 2995000;
        mkPayout 1 Token1 4000; mkPayout 8 Token1 1500000;
        mkPayout 9 Token1 2496000 ] /\
  collect_fees Combined (reset_accumulators example_pool) 1 true = NoOp.
Proof.
  assert (E : collect_fees Combined example_pool 1 true =
    Collected (reset_accumulators example_pool)
      [ mkPayout 1 Token0 5000; mkPayout 8 Token0 2000000;
        mkPayout 9 Token0 2995000;
        mkPayout 1 Token1 4000; mkPayout 8 Token1 1500000;
        mkPayout 9 Token1 2496000 ]) by (vm_compute; reflexivity).
  split; [exact E|].
  apply (collect_fees_twice_is_noop _ _ _ _ _ _ E).
Defined.

(** The scenario of the specification: 500000 and 600000 accrued on
    token 0 only.  The two policies differ on it. *)
Example collect_fees_scenario :
  let p := mkPool 0 0 0 500000 0 600000 0 30 5 0 8 9 false ∅ in
  collect_fees PerAccumulator p 1 true = NoOp /\
  exists out, collect_fees Combined p 1 true = Collected (reset_accumulators p) out.
Proof. split; [reflexivity | eexists; vm_compute; reflexivity]. Qed.

End FeeCollector.

(** ** Initial storage of a deployed pool *)

Lemma uint_bits_length n v : length (TonCell.uint_bits n v) = n.
Proof. induction n as [|n IH]; cbn; [reflexivity | now rewrite IH]. Qed.

(** Side condition of a store: the bits written so far leave room. *)
Ltac store_fits :=
  cbn [TonCell.bits]; rewrite ?length_app, ?uint_bits_length;
  unfold TonCell.MAX_BITS; cbn [length]; lia.

Section InitialStorage.
Import TonCell.

Lemma bits_uint_fold l : forall acc,
  fold_left (fun a b => 2 * a + Z.b2z b) l acc =
  acc * 2 ^ Z.of_nat (length l) + bits_uint l.
Proof.
  unfold bits_uint. induction l as [|b l IH]; intros acc.
  - cbn. lia.
  - cbn [fold_left length]. rewrite IH, (IH (2 * 0 + Z.b2z b)).
    rewrite Nat2Z.inj_succ, Z.pow_succ_r by lia. ring.
Qed.

Lemma bits_uint_cons b l :
  bits_uint (b :: l) = Z.b2z b * 2 ^ Z.of_nat (length l) + bits_uint l.
Proof.
  unfold bits_uint at 1. cbn [fold_left].
  rewrite bits_uint_fold. ring.
Qed.

(** Writing a number and reading the bits back is the number modulo the
    width. *)
Lemma bits_uint_uint_bits n v :
  bits_uint (uint_bits n v) = v mod 2 ^ Z.of_nat n.
Proof.
  induction n as [|n IH].
  - cbn. now rewrite Z.mod_1_r.
  - cbn [uint_bits]. rewrite bits_uint_cons, uint_bits_length, IH.
    rewrite Nat2Z.inj_succ, Z.pow_succ_r by lia.
    rewrite (Z.mul_comm 2), Z.rem_mul_r by lia.
    rewrite Z.testbit_spec' by lia. ring.
Qed.

Lemma bits_uint_roundtrip n v :
  0 <= v < 2 ^ Z.of_nat n -> bits_uint (uint_bits n v) = v.
Proof. intros H. rewrite bits_uint_uint_bits. now apply Z.mod_small. Qed.

Lemma storeBits_Some l b :
  (length (bits b) + length l <= MAX_BITS)%nat ->
  storeBits l b = Some (mkCell (bits b ++ l) (refs b)).
Proof.
  intros H. unfold storeBits.
  now destruct (Nat.leb_spec (length (bits b) + length l) MAX_BITS); [|lia].
Qed.

Lemma storeUint_Some v n b :
  0 <= v < 2 ^ Z.of_nat n ->
  (length (bits b) + n <= MAX_BITS)%nat ->
  storeUint v n b = Some (mkCell (bits b ++ uint_bits n v) (refs b)).
Proof.
  intros Hv Hl. unfold storeUint.
  destruct (Z.leb_spec 0 v); [|lia]. destruct (Z.ltb_spec v (2 ^ Z.of_nat n)); [|lia].
  cbn [andb]. apply storeBits_Some. now rewrite uint_bits_length.
Qed.

Lemma storeInt_Some v n b :
  - 2 ^ (Z.of_nat n - 1) <= v < 2 ^ (Z.of_nat n - 1) ->
  (length (bits b) + n <= MAX_BITS)%nat ->
  storeInt v n b =
    Some (mkCell (bits b ++ uint_bits n (v mod 2 ^ Z.of_nat n)) (refs b)).
Proof.
  intros Hv Hl. unfold storeInt.
  destruct (Z.leb_spec (- 2 ^ (Z.of_nat n - 1)) v); [|lia].
  destruct (Z.ltb_spec v (2 ^ (Z.of_nat n - 1))); [|lia].
  cbn [andb]. apply storeBits_Some. now rewrite uint_bits_length.
Qed.

Lemma storeRef_Some c b :
  (length (refs b) < MAX_REFS)%nat ->
  storeRef c b = Some (mkCell (bits b) (refs b ++ [c])).
Proof.
  intros H. unfold storeRef.
  now destruct (Nat.ltb_spec (length (refs b)) MAX_REFS); [|lia].
Qed.

Lemma storeAddress_Some a b :
  valid_address a ->
  (length (bits b) + 267 <= MAX_BITS)%nat ->
  storeAddress a b = Some (mkCell (bits b ++ address_bits a) (refs b)).
Proof.
  intros [Hw Hh] Hl. unfold storeAddress. unfold MAX_BITS in Hl.
  cbn [chain].
  rewrite storeUint_Some; [|cbn; lia|unfold MAX_BITS; lia]. cbn [chain].
  rewrite storeUint_Some; [|cbn; lia|store_fits]. cbn [chain].
  rewrite storeInt_Some; [|cbn; lia|store_fits]. cbn [chain].
  rewrite storeUint_Some; [|exact Hh|store_fits].
  cbn [bits refs]. unfold address_bits.
  now rewrite <- !app_assoc.
Qed.

Lemma addressCell_Some a :
  valid_address a -> addressCell a = Some (mkCell (address_bits a) []).
Proof.
  intros Ha. unfold addressCell, beginCell, endCell. cbn [chain].
  rewrite storeAddress_Some by (assumption || (cbn; unfold MAX_BITS; lia)).
  reflexivity.
Qed.

Lemma loadUint_app n l rest :
  length l = n -> loadUint n (l ++ rest) = Some (bits_uint l, rest).
Proof.
  intros <-. unfold loadUint. rewrite length_app.
  destruct (Nat.leb_spec (length l) (length l + length rest)); [|lia].
  now rewrite take_app_length, drop_app_length.
Qed.

(** The bits written by [poolConfigToCell]. *)
Lemma poolConfigToCell_Some config :
  valid_address (owner_address config) ->
  valid_address (token_a_address config) ->
  valid_address (token_b_address config) ->
  valid_address (lp_token_address config) ->
  0 <= min_liquidity config < 2 ^ 128 ->
  poolConfigToCell config =
    Some (mkCell
            (uint_bits 128 0 ++ uint_bits 128 0 ++ uint_bits 128 0
               ++ uint_bits 128 (min_liquidity config)
               ++ uint_bits 1 0 ++ [false])
            [ mkCell (address_bits (owner_address config)) [];
              mkCell (address_bits (token_a_address config)) [];
              mkCell (address_bits (token_b_address config)) [];
              mkCell (address_bits (lp_token_address config)) [] ]).
Proof.
  intros Ho Ha Hb Hl Hm. unfold poolConfigToCell.
  rewrite !addressCell_Some by assumption. cbn [mbind option_bind].
  unfold beginCell, endCell, storeDict_empty.
  assert (Hz : 0 <= 0 < 2 ^ Z.of_nat 128) by (split; [lia|reflexivity]).
  assert (Hz1 : 0 <= 0 < 2 ^ Z.of_nat 1) by (split; [lia|reflexivity]).
  do 3 (cbn [chain]; rewrite storeRef_Some by (cbn; unfold MAX_REFS; lia);
        cbn [bits refs app]).
  do 3 (cbn [chain]; rewrite (storeUint_Some 0 128); [|exact Hz|store_fits];
        cbn [bits refs app]).
  cbn [chain]; rewrite (storeUint_Some _ 128); [|exact Hm|store_fits].
  cbn [chain bits refs]; rewrite (storeUint_Some 0 1); [|exact Hz1|store_fits].
  cbn [chain bits refs]; rewrite storeBits_Some; [|store_fits].
  cbn [chain bits refs]; rewrite storeRef_Some by (cbn; unfold MAX_REFS; lia).
  cbn [chain bits refs app].
  now rewrite <- !app_assoc.
Qed.

(** C7.  The storage built for a new pool reads back as an unlocked
    ([Active]) pool with [reserve_a = 0], [reserve_b = 0] and
    [total_supply = 0] (and no authorized address), whatever the
    configuration. *)
Theorem poolConfigToCell_initial_state config :
  valid_config config ->
  exists c d,
    poolConfigToCell config = Some c /\
    loadPoolData c = Some d /\
    lock_state d = Active /\
    reserve_a d = 0 /\ reserve_b d = 0 /\ total_supply d = 0 /\
    authorized_empty d = true /\
    stored_min_liquidity d = min_liquidity config.
Proof.
  intros (Ho & Ha & Hb & Hl & Hm).
  eexists. eexists. split; [now apply poolConfigToCell_Some|].
  unfold loadPoolData. cbn [bits].
  do 3 (rewrite loadUint_app by apply uint_bits_length;
        cbn [mbind option_bind]).
  rewrite loadUint_app by apply uint_bits_length. cbn [mbind option_bind].
  rewrite loadUint_app by apply uint_bits_length. cbn [mbind option_bind].
  rewrite (bits_uint_roundtrip 128 (min_liquidity config)) by exact Hm.
  split; [reflexivity|]. cbn. auto 10.
Qed.

Lemma poolConfigToCell_initial_state_witness :
  valid_config example_config /\
  exists c d,
    poolConfigToCell example_config = Some c /\
    loadPoolData c = Some d /\
    lock_state d = Active /\
    reserve_a d = 0 /\ reserve_b d = 0 /\ total_supply d = 0 /\
    authorized_empty d = true /\
    stored_min_liquidity d = min_liquidity example_config.
Proof.
  assert (H : valid_config example_config).
  { unfold valid_config, valid_address. cbn. repeat split; try lia;
      try (vm_compute; reflexivity); vm_compute; discriminate. }
  split; [exact H|].
  exact (poolConfigToCell_initial_state example_config H).
Defined.

(** A liquidity floor that does not fit 128 bits makes the builder
    raise: no storage, hence no pool. *)
Example poolConfigToCell_out_of_range :
  poolConfigToCell
    (mkPoolConfig (example_address 11) (example_address 12)
                  (example_address 13) (example_address 14) (-1)) = None.
Proof. vm_compute. reflexivity. Qed.

End InitialStorage.

(** ** The [setFees] request *)

Section Encoders.
Import TonCell.

Variable beginMessage : Z -> option Cell.

(** The encoder stores each rate in an 8-bit field: it accepts every
    rate up to 255 and checks no other bound. *)
Lemma setFees_encodes lp proto ref a b :
  beginMessage 0x355423e5 = Some b ->
  (length (bits b) + 291 <= MAX_BITS)%nat ->
  valid_address a ->
  0 <= lp < 256 -> 0 <= proto < 256 -> 0 <= ref < 256 ->
  setFees beginMessage lp proto ref a =
    Some (mkCell (bits b ++ uint_bits 8 lp ++ uint_bits 8 proto
                    ++ uint_bits 8 ref ++ address_bits a) (refs b)).
Proof.
  intros Hb Hl Ha H1 H2 H3. unfold setFees. rewrite Hb. unfold MAX_BITS in Hl.
  cbn [chain]; rewrite storeUint_Some; [|exact H1|unfold MAX_BITS; lia].
  cbn [chain]; rewrite storeUint_Some; [|exact H2|store_fits].
  cbn [chain]; rewrite storeUint_Some; [|exact H3|store_fits].
  cbn [chain]; rewrite storeAddress_Some; [|exact Ha|store_fits].
  cbn [chain bits refs endCell]. now rewrite <- !app_assoc.
Qed.

Lemma storeUint_None v n b :
  v < 0 \/ 2 ^ Z.of_nat n <= v -> storeUint v n b = None.
Proof.
  intros H. unfold storeUint.
  destruct (Z.leb_spec 0 v); [|reflexivity].
  destruct (Z.ltb_spec v (2 ^ Z.of_nat n)); [lia|reflexivity].
Qed.

Lemma setFees_rejects_wide_rate lp proto ref a :
  lp < 0 \/ 256 <= lp -> setFees beginMessage lp proto ref a = None.
Proof.
  intros H. unfold setFees.
  destruct (beginMessage _); [|reflexivity].
  cbn [chain]. now rewrite storeUint_None.
Qed.

End Encoders.

(** Every rate of the fee schedule fits the request, and so do rates
    above [MAX_FEE]: the bound of 200 is the handler's check. *)
Example setFees_accepts_255 :
  exists c,
    TonCell.setFees TonCell.opcode_header 255 200 0 (TonCell.example_address 9)
      = Some c.
Proof. eexists. vm_compute. reflexivity. Qed.

(** * Further properties of the DeFi contract *)

Lemma add_Ok x y r : add x y = Ok r -> r = x + y.
Proof. intros H. now apply checked_Ok in H. Qed.

Lemma sub_Ok x y r : sub x y = Ok r -> r = x - y.
Proof. intros H. now apply checked_Ok in H. Qed.

Lemma mul_Ok x y r : mul x y = Ok r -> r = x * y.
Proof. intros H. now apply checked_Ok in H. Qed.

Lemma require_Ok c code u : Dex.require c code = Ok u -> c = true.
Proof. unfold Dex.require. now destruct c. Qed.

(** Splits a successful run of checked steps into its steps. *)
Ltac bind_inv H :=
  repeat match type of H with
  | bind ?m _ = Ok _ =>
      let E := fresh "E" in
      destruct m eqn:E; cbn [bind] in H; [|discriminate H]
  end.

Ltac arith_inv :=
  repeat match goal with
  | E : add _ _ = Ok _ |- _ => apply add_Ok in E
  | E : sub _ _ = Ok _ |- _ => apply sub_Ok in E
  | E : mul _ _ = Ok _ |- _ => apply mul_Ok in E
  | E : div _ _ = Ok _ |- _ => apply div_Ok in E; destruct E as (? & E & _)
  | E : Dex.require _ _ = Ok _ |- _ => apply require_Ok in E
  end.

Section DexSwapMore.
Import Dex.





(** X3.  [swapAtoB] does not check the sign of [amountA].  With
    [-tokenA < amountA < 0] and a positive [tokenB] it runs in reverse:
    [tokenA] decreases, the amount sent is negative, [tokenB] increases,
    and the product of the reserves still does not decrease. *)
Theorem swapAtoB_accepts_negative_amount st sender poolId amountA st' out :
  amountA < 0 ->
  0 < tokenA (pool_at st poolId) + amountA ->
  0 < tokenB (pool_at st poolId) ->
  swapAtoB st sender poolId amountA = Ok (st', out) ->
  exists sent,
    out = [(sender, sent)] /\ sent < 0 /\
    tokenA (pool_at st' poolId) < tokenA (pool_at st poolId) /\
    tokenB (pool_at st poolId) < tokenB (pool_at st' poolId) /\
    product (pool_at st poolId) <= product (pool_at st' poolId).
Proof.
  intros Ha Hd HB E. apply swapAtoB_Ok in E as (_ & -> & ->).
  eexists. split; [reflexivity|].
  rewrite pool_at_insert. unfold product, swapped, amount_out. cbn.
  set (p := pool_at st poolId) in *.
  assert (Hq : (amountA * tokenB p) / (tokenA p + amountA) < 0)
    by (apply Z.div_lt_upper_bound; [lia|nia]).
  pose proof (Z.mul_div_le (amountA * tokenB p) (tokenA p + amountA) Hd).
  repeat split; try lia.
Qed.

Lemma swapAtoB_accepts_negative_amount_witness :
  -1000 < 0 /\
  0 < tokenA (pool_at st_1M 1) + -1000 /\
  0 < tokenB (pool_at st_1M 1) /\
  swapAtoB st_1M 7 1 (-1000) =
    Ok (one_pool (mkPool 2000000 999000 1001002 ∅), [(7, -1002)]) /\
  exists sent,
    [(7, -1002)] = [(7, sent)] /\ sent < 0 /\
    tokenA (pool_at (one_pool (mkPool 2000000 999000 1001002 ∅)) 1)
      < tokenA (pool_at st_1M 1) /\
    tokenB (pool_at st_1M 1)
      < tokenB (pool_at (one_pool (mkPool 2000000 999000 1001002 ∅)) 1) /\
    product (pool_at st_1M 1)
      <= product (pool_at (one_pool (mkPool 2000000 999000 1001002 ∅)) 1).
Proof.
  assert (H1 : -1000 < 0) by lia.
  assert (H2 : 0 < tokenA (pool_at st_1M 1) + -1000) by (vm_compute; reflexivity).
  assert (H3 : 0 < tokenB (pool_at st_1M 1)) by (vm_compute; reflexivity).
  assert (E : swapAtoB st_1M 7 1 (-1000) =
    Ok (one_pool (mkPool 2000000 999000 1001002 ∅), [(7, -1002)]))
    by (vm_compute; reflexivity).
  repeat (split; [assumption|]).
  exact (swapAtoB_accepts_negative_amount _ _ _ _ _ _ H1 H2 H3 E).
Defined.

End DexSwapMore.

Section DexLiquidityMore.
Import Dex.

Lemma provider_total_insert (lp : gmap Z Z) who v :
  provider_total (<[who := v]> lp) = provider_total lp - balance_of lp who + v.
Proof.
  unfold provider_total, balance_of.
  assert (Hc : forall (m : gmap Z Z) (j1 j2 z1 z2 y : Z),
    j1 <> j2 -> m !! j1 = Some z1 -> m !! j2 = Some z2 ->
    z1 + (z2 + y) = z2 + (z1 + y)) by (intros; lia).
  destruct (lp !! who) as [old|] eqn:E; cbn.
  - rewrite <- (insert_delete_eq lp who v).
    rewrite (map_fold_insert_L _ _ who v (delete who lp));
      [|apply Hc|apply lookup_delete_eq].
    rewrite (map_fold_delete_L _ _ who old lp); [|apply Hc|exact E].
    cbn beta. set (t := map_fold _ _ _). lia.
  - rewrite (map_fold_insert_L _ _ who v lp); [|apply Hc|exact E].
    cbn beta. set (t := map_fold _ _ _). lia.
Qed.

(** X4.  [addLiquidity] credits exactly what it adds: the pool's
    [totalLiquidity] and the sum of all provider balances both grow by
    [amountA + amountB], and no balance other than the sender's
    changes. *)
Theorem addLiquidity_credits_sender st sender poolId amountA amountB st' :
  addLiquidity st sender poolId amountA amountB = Ok st' ->
  totalLiquidity (pool_at st' poolId)
    = totalLiquidity (pool_at st poolId) + (amountA + amountB) /\
  provider_total (liquidityProviders (pool_at st' poolId))
    = provider_total (liquidityProviders (pool_at st poolId)) + (amountA + amountB) /\
  forall who, who <> sender ->
    balance_of (liquidityProviders (pool_at st' poolId)) who
      = balance_of (liquidityProviders (pool_at st poolId)) who.
Proof.
  intros E. apply addLiquidity_Ok in E. cbv zeta in E. subst st'.
  rewrite pool_at_insert. cbn. split; [reflexivity|]. split.
  - rewrite provider_total_insert. lia.
  - intros who Hne. unfold balance_of. now rewrite lookup_insert_ne.
Qed.

Lemma addLiquidity_credits_sender_witness :
  addLiquidity st_first_deposit 7 1 50 50 =
    Ok (one_pool (mkPool 500100 100050 400050 {[ 7 := 100 ]})) /\
  provider_total (liquidityProviders
     (pool_at (one_pool (mkPool 500100 100050 400050 {[ 7 := 100 ]})) 1))
    = provider_total (liquidityProviders (pool_at st_first_deposit 1)) + (50 + 50).
Proof.
  assert (E : addLiquidity st_first_deposit 7 1 50 50 =
    Ok (one_pool (mkPool 500100 100050 400050 {[ 7 := 100 ]})))
    by (vm_compute; reflexivity).
  split; [exact E|].
  exact (proj1 (proj2 (addLiquidity_credits_sender _ _ _ _ _ _ E))).
Defined.

(** X5.  [addLiquidity] does not check that the pool exists and
    [createPool] does not check that its new id is free: liquidity added
    under the id [poolCount + 1] is credited to the sender, and the next
    [createPool] takes that id and replaces the pool, the balance of the
    sender being 0 again. *)
Theorem addLiquidity_then_createPool_forgets_provider
    st sender amountA amountB st1 amountA' amountB' st2 id :
  addLiquidity st sender (poolCount st + 1) amountA amountB = Ok st1 ->
  createPool st1 amountA' amountB' = Ok (st2, id) ->
  id = poolCount st + 1 /\
  balance_of (liquidityProviders (pool_at st1 id)) sender
    = balance_of (liquidityProviders (pool_at st id)) sender + (amountA + amountB) /\
  pool_at st2 id = mkPool (amountA' + amountB') amountA' amountB' ∅ /\
  balance_of (liquidityProviders (pool_at st2 id)) sender = 0.
Proof.
  intros E1 E2.
  apply addLiquidity_Ok in E1. cbv zeta in E1. subst st1.
  apply createPool_Ok in E2 as [Hid ->]. cbn in Hid. subst id.
  split; [reflexivity|]. split.
  - rewrite pool_at_insert. cbn. unfold balance_of at 1.
    now rewrite lookup_insert_eq.
  - assert (H : forall p (m : gmap Z Pool) s k,
        pool_at (set_pools s (<[k := p]> m)) k = p).
    { intros. unfold pool_at. cbn. now rewrite lookup_insert_eq. }
    rewrite H. split; reflexivity.
Qed.

Lemma addLiquidity_then_createPool_forgets_provider_witness :
  addLiquidity initial_state 7 (poolCount initial_state + 1) 100000 400000 =
    Ok (set_pools initial_state
          {[ 1 := mkPool 500000 100000 400000 {[ 7 := 500000 ]} ]}) /\
  createPool (set_pools initial_state
          {[ 1 := mkPool 500000 100000 400000 {[ 7 := 500000 ]} ]}) 1 1 =
    Ok (one_pool (mkPool 2 1 1 ∅), 1) /\
  balance_of (liquidityProviders (pool_at (one_pool (mkPool 2 1 1 ∅)) 1)) 7 = 0.
Proof.
  assert (E1 : addLiquidity initial_state 7 (poolCount initial_state + 1)
                 100000 400000 =
    Ok (set_pools initial_state
          {[ 1 := mkPool 500000 100000 400000 {[ 7 := 500000 ]} ]}))
    by (vm_compute; reflexivity).
  assert (E2 : createPool (set_pools initial_state
          {[ 1 := mkPool 500000 100000 400000 {[ 7 := 500000 ]} ]}) 1 1 =
    Ok (one_pool (mkPool 2 1 1 ∅), 1)) by (vm_compute; reflexivity).
  split; [exact E1|]. split; [exact E2|].
  exact (proj2 (proj2 (proj2
    (addLiquidity_then_createPool_forgets_provider _ _ _ _ _ _ _ _ _ E1 E2)))).
Defined.

(** X6.  [createPool] sets [totalLiquidity = tokenA + tokenB] and
    [addLiquidity] keeps that equation; a swap leaves [totalLiquidity]
    as it is, so that afterwards [tokenA + tokenB] exceeds it by
    [amountA - sent]. *)
Theorem liquidity_tracks_reserves_until_swap st sender poolId amountA amountB :
  (forall st' id,
     createPool st amountA amountB = Ok (st', id) ->
     totalLiquidity (pool_at st' id)
       = tokenA (pool_at st' id) + tokenB (pool_at st' id)) /\
  (forall st',
     totalLiquidity (pool_at st poolId)
       = tokenA (pool_at st poolId) + tokenB (pool_at st poolId) ->
     addLiquidity st sender poolId amountA amountB = Ok st' ->
     totalLiquidity (pool_at st' poolId)
       = tokenA (pool_at st' poolId) + tokenB (pool_at st' poolId)) /\
  (forall st' sent,
     totalLiquidity (pool_at st poolId)
       = tokenA (pool_at st poolId) + tokenB (pool_at st poolId) ->
     swapAtoB st sender poolId amountA = Ok (st', [(sender, sent)]) ->
     tokenA (pool_at st' poolId) + tokenB (pool_at st' poolId)
       = totalLiquidity (pool_at st' poolId) + (amountA - sent)).
Proof.
  split; [|split].
  - intros st' id E. apply createPool_Ok in E as [_ ->].
    unfold pool_at. cbn. now rewrite lookup_insert_eq.
  - intros st' H E. apply addLiquidity_Ok in E. cbv zeta in E. subst st'.
    rewrite pool_at_insert. cbn. lia.
  - intros st' sent H E. apply swapAtoB_Ok in E as (_ & -> & [= ->]).
    rewrite pool_at_insert. unfold swapped. cbn. lia.
Qed.

Lemma liquidity_tracks_reserves_until_swap_witness :
  totalLiquidity (pool_at st_1M 1)
    = tokenA (pool_at st_1M 1) + tokenB (pool_at st_1M 1) /\
  swapAtoB st_1M 7 1 1000 =
    Ok (one_pool (mkPool 2000000 1001000 999001 ∅), [(7, 999)]) /\
  tokenA (pool_at (one_pool (mkPool 2000000 1001000 999001 ∅)) 1)
    + tokenB (pool_at (one_pool (mkPool 2000000 1001000 999001 ∅)) 1)
    = totalLiquidity (pool_at (one_pool (mkPool 2000000 1001000 999001 ∅)) 1)
      + (1000 - 999).
Proof.
  assert (H : totalLiquidity (pool_at st_1M 1)
    = tokenA (pool_at st_1M 1) + tokenB (pool_at st_1M 1))
    by (vm_compute; reflexivity).
  assert (E : swapAtoB st_1M 7 1 1000 =
    Ok (one_pool (mkPool 2000000 1001000 999001 ∅), [(7, 999)]))
    by (vm_compute; reflexivity).
  split; [exact H|]. split; [exact E|].
  exact (proj2 (proj2 (liquidity_tracks_reserves_until_swap st_1M 7 1 1000 0))
           _ _ H E).
Defined.

End DexLiquidityMore.

(** ** Staking, loans and the DAO *)

Section DexRuns.
Import Dex.

Lemma stakeLP_Ok st sender amount st' out :
  stakeLP st sender amount = Ok (st', out) ->
  st' = set_stakers st
          (<[sender := mkStaker (stakedAmount (staker_at st sender) + amount)
                                (rewardDebt (staker_at st sender)
                                 + amount * rewardPerBlock st)]> (stakers st)) /\
  out = [Received sender amount].
Proof.
  unfold stakeLP. intros H. bind_inv H. arith_inv. subst.
  now injection H as <- <-.
Qed.

Lemma claimYieldRewards_Ok st sender st' out :
  claimYieldRewards st sender = Ok (st', out) ->
  st' = set_stakers st
          (<[sender := mkStaker (stakedAmount (staker_at st sender))
                                (stakedAmount (staker_at st sender)
                                 * rewardPerBlock st)]> (stakers st)) /\
  out = [Sent sender (stakedAmount (staker_at st sender) * rewardPerBlock st
                      - rewardDebt (staker_at st sender))].
Proof.
  unfold claimYieldRewards. intros H. bind_inv H. arith_inv. subst.
  now injection H as <- <-.
Qed.

Lemma requestLoan_Ok st sender collateral st' out :
  requestLoan st sender collateral = Ok (st', out) ->
  0 < collateral /\ loanAmount (loan_at st sender) = 0 /\
  100 + loanInterestRate st <> 0 /\
  st' = set_loans st
          (<[sender := mkLoan (collateral * 100 / (100 + loanInterestRate st))
                              collateral (loanInterestRate st)
                              (getCurrentBlock + loanDuration st) false]>
             (loans st)) /\
  out = [Received sender collateral;
         Sent sender (collateral * 100 / (100 + loanInterestRate st))].
Proof.
  unfold requestLoan. intros H. bind_inv H. arith_inv. subst.
  injection H as <- <-.
  match goal with E : (0 <? _) = true |- _ => apply Z.ltb_lt in E end.
  match goal with E : (_ =? 0) = true |- _ => apply Z.eqb_eq in E end.
  auto 10.
Qed.

Lemma repayLoan_Ok st sender st' out :
  repayLoan st sender = Ok (st', out) ->
  isRepaid (loan_at st sender) = false /\
  st' = set_loans st
          (<[sender := mkLoan (loanAmount (loan_at st sender))
                              (collateralAmount (loan_at st sender))
                              (interestRate (loan_at st sender))
                              (dueBlock (loan_at st sender)) true]> (loans st)) /\
  out = [Received sender
           (loanAmount (loan_at st sender)
            + loanAmount (loan_at st sender) * interestRate (loan_at st sender) / 100);
         Sent sender (collateralAmount (loan_at st sender))].
Proof.
  unfold repayLoan. intros H. bind_inv H. arith_inv. subst.
  injection H as <- <-.
  match goal with E : negb _ = true |- _ => apply negb_true_iff in E end.
  auto.
Qed.

Lemma proposeInitiative_Ok st sender amount st' :
  proposeInitiative st sender amount = Ok st' ->
  is_Some (members (communityDAO st) !! sender) /\
  st' = set_communityDAO st
          (mkDAO (members (communityDAO st)) (treasury (communityDAO st) - amount)).
Proof.
  unfold proposeInitiative. intros H. bind_inv H. arith_inv. subst.
  injection H as <-.
  match goal with E : bool_decide _ = true |- _ => apply bool_decide_eq_true in E end.
  auto.
Qed.

(** What a call does to the state, call by call. *)
Lemma exec_Ok st sender c st' :
  exec st sender c = Ok st' ->
  match c with
  | CreatePool a b =>
      st' = set_pools (set_poolCount st (poolCount st + 1))
              (<[poolCount st + 1 := mkPool (a + b) a b ∅]> (pools st))
  | AddLiquidity _ _ _ | SwapAtoB _ _ => exists ps, st' = set_pools st ps
  | StakeLP a =>
      st' = set_stakers st
              (<[sender := mkStaker (stakedAmount (staker_at st sender) + a)
                                    (rewardDebt (staker_at st sender)
                                     + a * rewardPerBlock st)]> (stakers st))
  | ClaimYieldRewards =>
      st' = set_stakers st
              (<[sender := mkStaker (stakedAmount (staker_at st sender))
                                    (stakedAmount (staker_at st sender)
                                     * rewardPerBlock st)]> (stakers st))
  | RequestLoan _ =>
      loanAmount (loan_at st sender) = 0 /\
      exists l, st' = set_loans st (<[sender := l]> (loans st))
  | RepayLoan =>
      isRepaid (loan_at st sender) = false /\
      exists l, st' = set_loans st (<[sender := l]> (loans st))
  | ProposeInitiative _ =>
      is_Some (members (communityDAO st) !! sender) /\
      exists t, st' = set_communityDAO st (mkDAO (members (communityDAO st)) t)
  end.
Proof.
  destruct c; cbn [exec]; unfold state_of; intros H.
  - destruct (createPool _ _ _) as [[s i]|] eqn:E; [|discriminate].
    injection H as <-. cbn. now apply createPool_Ok in E as [-> ->].
  - apply addLiquidity_Ok in H. cbv zeta in H. eauto.
  - destruct (swapAtoB _ _ _ _) as [[s o]|] eqn:E; [|discriminate].
    injection H as <-. cbn. apply swapAtoB_Ok in E as (_ & -> & _). eauto.
  - destruct (stakeLP _ _ _) as [[s o]|] eqn:E; [|discriminate].
    injection H as <-. cbn. now apply stakeLP_Ok in E as [-> _].
  - destruct (claimYieldRewards _ _) as [[s o]|] eqn:E; [|discriminate].
    injection H as <-. cbn. now apply claimYieldRewards_Ok in E as [-> _].
  - destruct (requestLoan _ _ _) as [[s o]|] eqn:E; [|discriminate].
    injection H as <-. cbn. apply requestLoan_Ok in E as (_ & ? & _ & -> & _).
    eauto.
  - destruct (repayLoan _ _) as [[s o]|] eqn:E; [|discriminate].
    injection H as <-. cbn. apply repayLoan_Ok in E as (? & -> & _). eauto.
  - apply proposeInitiative_Ok in H as [? ->]. eauto.
Qed.

(** The parameters of the contract and the member list are written by
    no function; the pool counter only grows. *)
Lemma exec_parameters st sender c st' :
  exec st sender c = Ok st' ->
  rewardPerBlock st' = rewardPerBlock st /\
  loanInterestRate st' = loanInterestRate st /\
  loanDuration st' = loanDuration st /\
  members (communityDAO st') = members (communityDAO st) /\
  poolCount st <= poolCount st'.
Proof.
  intros H. apply exec_Ok in H.
  destruct c; repeat match goal with
  | H : _ /\ _ |- _ => destruct H
  | H : exists _, _ |- _ => destruct H
  end; subst st'; cbn; repeat split; lia.
Qed.

Lemma steps_parameters st st' :
  steps st st' ->
  rewardPerBlock st' = rewardPerBlock st /\
  loanInterestRate st' = loanInterestRate st /\
  loanDuration st' = loanDuration st /\
  members (communityDAO st') = members (communityDAO st) /\
  poolCount st <= poolCount st'.
Proof.
  induction 1 as [|st1 st2 sender c _ IH E].
  - repeat split; lia.
  - apply exec_parameters in E.
    destruct IH as (I1 & I2 & I3 & I4 & I5), E as (E1 & E2 & E3 & E4 & E5).
    repeat split; try congruence. lia.
Qed.

Lemma debt_settled_staker_at st who :
  debt_settled st ->
  rewardDebt (staker_at st who) = stakedAmount (staker_at st who) * rewardPerBlock st.
Proof.
  intros H. unfold staker_at. destruct (stakers st !! who) eqn:E; cbn.
  - now apply (H who).
  - reflexivity.
Qed.

Lemma exec_debt_settled st sender c st' :
  debt_settled st -> exec st sender c = Ok st' -> debt_settled st'.
Proof.
  intros Hinv H. pose proof (debt_settled_staker_at st sender Hinv) as Hs.
  apply exec_Ok in H.
  destruct c; repeat match goal with
  | H : _ /\ _ |- _ => destruct H
  | H : exists _, _ |- _ => destruct H
  end; subst st'; try exact Hinv.
  - intros who s. cbn. destruct (decide (sender = who)) as [<-|Hne].
    + rewrite lookup_insert_eq. intros [= <-]. cbn. rewrite Hs. ring.
    + rewrite lookup_insert_ne by exact Hne. apply Hinv.
  - intros who s. cbn. destruct (decide (sender = who)) as [<-|Hne].
    + rewrite lookup_insert_eq. now intros [= <-].
    + rewrite lookup_insert_ne by exact Hne. apply Hinv.
Qed.

Lemma reachable_invariant st :
  reachable st ->
  rewardPerBlock st = 10 /\ loanInterestRate st = 5 /\ loanDuration st = 100 /\
  members (communityDAO st) = ∅ /\ debt_settled st.
Proof.
  intros H. pose proof (steps_parameters _ _ H) as (H1 & H2 & H3 & H4 & _).
  repeat (split; [assumption|]).
  unfold reachable in H. clear H1 H2 H3 H4.
  induction H as [|st1 st2 sender c _ IH E].
  - intros who s. cbn. now rewrite lookup_empty.
  - eapply exec_debt_settled; eassumption.
Qed.

(** X7.  In every state reached from the initial one by calls of the
    contract, [claimYieldRewards] sends exactly 0 and leaves the record
    of the staker as it is: [stakeLP] adds [amount * rewardPerBlock] to
    the debt with the stake, and nothing changes [rewardPerBlock]. *)
Theorem claimYieldRewards_pays_nothing st sender st' out :
  reachable st ->
  claimYieldRewards st sender = Ok (st', out) ->
  out = [Sent sender 0] /\
  staker_at st' sender = staker_at st sender.
Proof.
  intros Hr E. apply reachable_invariant in Hr as (_ & _ & _ & _ & Hinv).
  pose proof (debt_settled_staker_at st sender Hinv) as Hs.
  apply claimYieldRewards_Ok in E as [-> ->]. split.
  - do 2 f_equal. lia.
  - unfold staker_at at 1. cbn. rewrite lookup_insert_eq. cbn.
    rewrite <- Hs. now destruct (staker_at st sender).
Qed.

Lemma st_staked_reachable : reachable st_staked.
Proof.
  apply (steps_call _ initial_state st_staked 7 (StakeLP 100)).
  - apply steps_refl.
  - vm_compute. reflexivity.
Defined.

Lemma claimYieldRewards_pays_nothing_witness :
  reachable st_staked /\
  claimYieldRewards st_staked 7 = Ok (st_staked, [Sent 7 0]) /\
  [Sent 7 0] = [Sent 7 0] /\ staker_at st_staked 7 = staker_at st_staked 7.
Proof.
  assert (E : claimYieldRewards st_staked 7 = Ok (st_staked, [Sent 7 0]))
    by (vm_compute; reflexivity).
  split; [exact st_staked_reachable|]. split; [exact E|].
  exact (claimYieldRewards_pays_nothing _ _ _ _ st_staked_reachable E).
Defined.

(** X8.  The ids returned by [createPool] increase strictly along any
    run: no id is returned twice, whatever calls come in between. *)
Theorem createPool_ids_increase st amountA amountB st1 id1 st2 amountA' amountB' st3 id2 :
  createPool st amountA amountB = Ok (st1, id1) ->
  steps st1 st2 ->
  createPool st2 amountA' amountB' = Ok (st3, id2) ->
  id1 < id2.
Proof.
  intros E1 Hs E2.
  apply createPool_Ok in E1 as [-> ->]. apply createPool_Ok in E2 as [-> _].
  apply steps_parameters in Hs as (_ & _ & _ & _ & Hs). cbn in Hs. lia.
Qed.

Lemma createPool_ids_increase_witness :
  createPool initial_state 1000000 1000000 = Ok (st_1M, 1) /\
  steps st_1M (one_pool (mkPool 2000000 1001000 999001 ∅)) /\
  createPool (one_pool (mkPool 2000000 1001000 999001 ∅)) 5 5 =
    Ok (mkState (<[ 2 := mkPool 10 5 5 ∅ ]> {[ 1 := mkPool 2000000 1001000 999001 ∅ ]})
                ∅ ∅ (mkDAO ∅ 0) 2 10 5 100, 2) /\
  1 < 2.
Proof.
  assert (E1 : createPool initial_state 1000000 1000000 = Ok (st_1M, 1))
    by (vm_compute; reflexivity).
  assert (Hs : steps st_1M (one_pool (mkPool 2000000 1001000 999001 ∅))).
  { apply (steps_call _ st_1M _ 7 (SwapAtoB 1 1000)); [apply steps_refl|].
    vm_compute. reflexivity. }
  assert (E2 : createPool (one_pool (mkPool 2000000 1001000 999001 ∅)) 5 5 =
    Ok (mkState (<[ 2 := mkPool 10 5 5 ∅ ]> {[ 1 := mkPool 2000000 1001000 999001 ∅ ]})
                ∅ ∅ (mkDAO ∅ 0) 2 10 5 100, 2)) by (vm_compute; reflexivity).
  split; [exact E1|]. split; [exact Hs|]. split; [exact E2|].
  exact (createPool_ids_increase _ _ _ _ _ _ _ _ _ _ E1 Hs E2).
Defined.

(** X9.  A loan followed by its repayment.  With a non-negative interest
    rate, [requestLoan] takes the collateral and sends [lent]; the
    [repayLoan] that follows takes [repaid] and sends the collateral
    back, with [0 <= lent <= repaid <= collateral]; the record is then
    marked repaid. *)
Theorem loan_round_trip st sender collateral st1 out1 st2 out2 :
  0 <= loanInterestRate st ->
  requestLoan st sender collateral = Ok (st1, out1) ->
  repayLoan st1 sender = Ok (st2, out2) ->
  exists lent repaid,
    out1 = [Received sender collateral; Sent sender lent] /\
    out2 = [Received sender repaid; Sent sender collateral] /\
    0 <= lent <= repaid /\ repaid <= collateral /\
    isRepaid (loan_at st2 sender) = true.
Proof.
  intros Hr E1 E2.
  apply requestLoan_Ok in E1 as (Hc & _ & _ & -> & ->).
  apply repayLoan_Ok in E2 as (_ & -> & ->).
  assert (Hl : forall (s : State) (l : Loan) (m : gmap Z Loan),
            loan_at (set_loans s (<[sender := l]> m)) sender = l).
  { intros. unfold loan_at. cbn. now rewrite lookup_insert_eq. }
  rewrite !Hl. cbn.
  set (r := loanInterestRate st) in *.
  set (lent := collateral * 100 / (100 + r)).
  do 2 eexists. split; [reflexivity|]. split; [reflexivity|].
  assert (H1 : (100 + r) * lent <= collateral * 100)
    by (apply Z.mul_div_le; lia).
  assert (H2 : 0 <= lent) by (apply Z.div_pos; lia).
  assert (H3 : 100 * (lent * r / 100) <= lent * r)
    by (apply Z.mul_div_le; lia).
  assert (H4 : 0 <= lent * r / 100) by (apply Z.div_pos; nia).
  repeat split; try lia; nia.
Qed.

Lemma loan_round_trip_witness :
  0 <= loanInterestRate initial_state /\
  requestLoan initial_state 7 100 = Ok (st_loan, [Received 7 100; Sent 7 95]) /\
  repayLoan st_loan 7 = Ok (st_repaid, [Received 7 99; Sent 7 100]) /\
  exists lent repaid,
    [Received 7 100; Sent 7 95] = [Received 7 100; Sent 7 lent] /\
    [Received 7 99; Sent 7 100] = [Received 7 repaid; Sent 7 100] /\
    0 <= lent <= repaid /\ repaid <= 100 /\
    isRepaid (loan_at st_repaid 7) = true.
Proof.
  assert (H : 0 <= loanInterestRate initial_state) by (vm_compute; discriminate).
  assert (E1 : requestLoan initial_state 7 100 =
                 Ok (st_loan, [Received 7 100; Sent 7 95]))
    by (vm_compute; reflexivity).
  assert (E2 : repayLoan st_loan 7 = Ok (st_repaid, [Received 7 99; Sent 7 100]))
    by (vm_compute; reflexivity).
  split; [exact H|]. split; [exact E1|]. split; [exact E2|].
  exact (loan_round_trip _ _ _ _ _ _ _ H E1 E2).
Defined.

Lemma loan_at_Some st (who : address) l :
  loans st !! who = Some l -> loan_at st who = l.
Proof. intros H. unfold loan_at. now rewrite H. Qed.

(** A record marked repaid with a non-zero amount stays as it is. *)
Lemma exec_keeps_repaid_loan st sender c st' who l :
  loans st !! who = Some l -> isRepaid l = true -> loanAmount l <> 0 ->
  exec st sender c = Ok st' ->
  loans st' !! who = Some l.
Proof.
  intros Hl Hr Hn H. apply exec_Ok in H.
  assert (Hat : loan_at st who = l) by now apply loan_at_Some.
  destruct c; repeat match goal with
  | H : _ /\ _ |- _ => destruct H
  | H : exists _, _ |- _ => destruct H
  end; subst st'; try exact Hl; cbn.
  - destruct (decide (sender = who)) as [->|Hne]; [congruence|].
    now rewrite lookup_insert_ne.
  - destruct (decide (sender = who)) as [->|Hne]; [congruence|].
    now rewrite lookup_insert_ne.
Qed.

(** X10.  After repaying a loan of a non-zero amount the borrower can
    never borrow again: the record keeps its amount and its repaid mark
    through every later call, so [requestLoan] aborts with 102 and
    [repayLoan] with 103. *)
Theorem repaid_borrower_is_locked_out st sender st1 out st2 :
  loanAmount (loan_at st sender) <> 0 ->
  repayLoan st sender = Ok (st1, out) ->
  steps st1 st2 ->
  (forall collateral, 0 < collateral ->
     requestLoan st2 sender collateral = Throw (RequireFailed 102)) /\
  repayLoan st2 sender = Throw (RequireFailed 103).
Proof.
  intros Hn E Hs. apply repayLoan_Ok in E as (_ & -> & _).
  set (l := mkLoan (loanAmount (loan_at st sender))
                   (collateralAmount (loan_at st sender))
                   (interestRate (loan_at st sender))
                   (dueBlock (loan_at st sender)) true) in *.
  assert (H2 : loans st2 !! sender = Some l).
  { induction Hs as [|sa sb s c _ IH E].
    - cbn. now rewrite lookup_insert_eq.
    - eapply exec_keeps_repaid_loan; eauto. }
  assert (Hat : loan_at st2 sender = l) by now apply loan_at_Some.
  split.
  - intros collateral Hc. unfold requestLoan.
    destruct (Z.ltb_spec 0 collateral); [|lia]. cbn [require bind].
    rewrite Hat. cbn [loanAmount l].
    destruct (Z.eqb_spec (loanAmount (loan_at st sender)) 0); [contradiction|].
    reflexivity.
  - unfold repayLoan. rewrite Hat. reflexivity.
Qed.

Lemma repaid_borrower_is_locked_out_witness :
  loanAmount (loan_at st_loan 7) <> 0 /\
  repayLoan st_loan 7 = Ok (st_repaid, [Received 7 99; Sent 7 100]) /\
  steps st_repaid st_repaid /\
  requestLoan st_repaid 7 100 = Throw (RequireFailed 102) /\
  repayLoan st_repaid 7 = Throw (RequireFailed 103).
Proof.
  assert (H : loanAmount (loan_at st_loan 7) <> 0) by (vm_compute; discriminate).
  assert (E : repayLoan st_loan 7 = Ok (st_repaid, [Received 7 99; Sent 7 100]))
    by (vm_compute; reflexivity).
  assert (Hs : steps st_repaid st_repaid) by apply steps_refl.
  split; [exact H|]. split; [exact E|]. split; [exact Hs|].
  destruct (repaid_borrower_is_locked_out _ _ _ _ _ H E Hs) as [H1 H2].
  split; [apply H1; lia | exact H2].
Defined.

(** X11.  No function of the contract adds a member to the DAO: in
    every state reached from the initial one [proposeInitiative] aborts
    with 104, for every sender and amount. *)
Theorem proposeInitiative_never_succeeds st sender amount :
  reachable st ->
  proposeInitiative st sender amount = Throw (RequireFailed 104).
Proof.
  intros Hr. apply reachable_invariant in Hr as (_ & _ & _ & Hm & _).
  unfold proposeInitiative. rewrite Hm, lookup_empty.
  rewrite bool_decide_eq_false_2; [reflexivity|].
  intros [x Hx]. discriminate.
Qed.

Lemma proposeInitiative_never_succeeds_witness :
  reachable st_staked /\
  proposeInitiative st_staked 7 1 = Throw (RequireFailed 104).
Proof.
  split; [exact st_staked_reachable|].
  exact (proposeInitiative_never_succeeds st_staked 7 1 st_staked_reachable).
Defined.

Lemma requestLoan_success st sender collateral :
  0 < collateral -> loanAmount (loan_at st sender) = 0 ->
  collateral * 100 <= INT_MAX ->
  0 <= loanInterestRate st -> 100 + loanInterestRate st <= INT_MAX ->
  INT_MIN <= loanDuration st <= INT_MAX ->
  requestLoan st sender collateral =
    Ok (set_loans st
          (<[sender := mkLoan (collateral * 100 / (100 + loanInterestRate st))
                              collateral (loanInterestRate st)
                              (getCurrentBlock + loanDuration st) false]>
             (loans st)),
        [Received sender collateral;
         Sent sender (collateral * 100 / (100 + loanInterestRate st))]).
Proof.
  intros Hc H0 Hm Hr Hr' Hd.
  pose proof INT_MIN_neg. pose proof INT_MAX_pos.
  unfold requestLoan, require, mul, add, div, getCurrentBlock.
  destruct (Z.ltb_spec 0 collateral); [|lia]. cbn [bind].
  rewrite H0. cbn [Z.eqb bind].
  rewrite (checked_fits (collateral * 100)) by lia. cbn [bind].
  rewrite (checked_fits (100 + loanInterestRate st)) by lia. cbn [bind].
  destruct (Z.eqb_spec (100 + loanInterestRate st) 0); [lia|].
  assert (0 <= collateral * 100 / (100 + loanInterestRate st) <= collateral * 100).
  { split; [apply Z.div_pos; lia|].
    apply Z.div_le_upper_bound; [lia|nia]. }
  rewrite checked_fits by lia. cbn [bind].
  rewrite checked_fits by lia. cbn [bind]. reflexivity.
Qed.

(** X12.  Error 102 tests the recorded amount, not the presence of a
    loan.  A collateral so small that the loan rounds to 0 is taken, 0
    is sent, and the next [requestLoan] of the same sender is accepted
    and replaces the record: the first collateral is recorded nowhere
    any more. *)
Theorem small_collateral_is_forgotten st sender collateral st1 out1 :
  0 <= loanInterestRate st -> 100 + loanInterestRate st <= INT_MAX ->
  INT_MIN <= loanDuration st <= INT_MAX ->
  collateral * 100 < 100 + loanInterestRate st ->
  requestLoan st sender collateral = Ok (st1, out1) ->
  out1 = [Received sender collateral; Sent sender 0] /\
  collateralAmount (loan_at st1 sender) = collateral /\
  forall collateral', 0 < collateral' -> collateral' * 100 <= INT_MAX ->
    exists st2 lent,
      requestLoan st1 sender collateral' =
        Ok (st2, [Received sender collateral'; Sent sender lent]) /\
      collateralAmount (loan_at st2 sender) = collateral'.
Proof.
  intros Hr Hr' Hd Hsmall E.
  apply requestLoan_Ok in E as (Hc & _ & _ & -> & ->).
  assert (Hz : collateral * 100 / (100 + loanInterestRate st) = 0)
    by (apply Z.div_small; lia).
  rewrite Hz.
  assert (Hl : forall (s : State) (l : Loan) (m : gmap Z Loan),
            loan_at (set_loans s (<[sender := l]> m)) sender = l).
  { intros. unfold loan_at. cbn. now rewrite lookup_insert_eq. }
  split; [reflexivity|]. split; [now rewrite Hl|].
  intros c' Hc' Hm'. do 2 eexists. split.
  - apply requestLoan_success; try assumption. now rewrite Hl.
  - now rewrite Hl.
Qed.

Lemma small_collateral_is_forgotten_witness :
  0 <= loanInterestRate initial_state /\
  100 + loanInterestRate initial_state <= INT_MAX /\
  (INT_MIN <= loanDuration initial_state <= INT_MAX) /\
  1 * 100 < 100 + loanInterestRate initial_state /\
  requestLoan initial_state 7 1 =
    Ok (set_loans initial_state {[ 7 := mkLoan 0 1 5 100 false ]},
        [Received 7 1; Sent 7 0]) /\
  exists st2 lent,
    requestLoan (set_loans initial_state {[ 7 := mkLoan 0 1 5 100 false ]}) 7 100 =
      Ok (st2, [Received 7 100; Sent 7 lent]) /\
    collateralAmount (loan_at st2 7) = 100.
Proof.
  assert (H1 : 0 <= loanInterestRate initial_state) by (vm_compute; discriminate).
  assert (H2 : 100 + loanInterestRate initial_state <= INT_MAX)
    by (vm_compute; discriminate).
  assert (H3 : INT_MIN <= loanDuration initial_state <= INT_MAX)
    by (split; vm_compute; discriminate).
  assert (H4 : 1 * 100 < 100 + loanInterestRate initial_state)
    by (vm_compute; reflexivity).
  assert (E : requestLoan initial_state 7 1 =
    Ok (set_loans initial_state {[ 7 := mkLoan 0 1 5 100 false ]},
        [Received 7 1; Sent 7 0])) by (vm_compute; reflexivity).
  repeat (split; [assumption|]).
  apply (proj2 (proj2 (small_collateral_is_forgotten _ _ _ _ _ H1 H2 H3 H4 E)) 100).
  - lia.
  - vm_compute. discriminate.
Defined.

End DexRuns.

(** * Further properties of the wrappers *)

Section CellCodec.
Import TonCell.

(** Stores that only append bits compose into one store of the
    concatenation. *)
Lemma storeBits_then l1 l2 (f : Cell -> option Cell) b :
  (forall b', f b' = storeBits l2 b') ->
  storeBits l1 b >>= f = storeBits (l1 ++ l2) b.
Proof.
  intros Hf. unfold storeBits. rewrite length_app.
  destruct (Nat.leb_spec (length (bits b) + length l1) MAX_BITS) as [H1|H1];
    cbn [chain].
  - rewrite Hf. unfold storeBits. cbn [bits refs]. rewrite length_app.
    destruct (Nat.leb_spec (length (bits b) + length l1 + length l2) MAX_BITS);
      destruct (Nat.leb_spec (length (bits b) + (length l1 + length l2)) MAX_BITS);
      try lia; [|reflexivity].
    now rewrite app_assoc.
  - destruct (Nat.leb_spec (length (bits b) + (length l1 + length l2)) MAX_BITS);
      [lia|reflexivity].
Qed.

Lemma storeBits_nil_cell l :
  storeBits l beginCell =
    if (length l <=? MAX_BITS)%nat then Some (mkCell l []) else None.
Proof. reflexivity. Qed.

Lemma storeUint_bits v n b :
  0 <= v < 2 ^ Z.of_nat n -> storeUint v n b = storeBits (uint_bits n v) b.
Proof.
  intros H. unfold storeUint.
  destruct (Z.leb_spec 0 v); [|lia].
  now destruct (Z.ltb_spec v (2 ^ Z.of_nat n)); [|lia].
Qed.

Lemma storeUint_out_of_range v n b :
  ~ 0 <= v < 2 ^ Z.of_nat n -> storeUint v n b = None.
Proof.
  intros H. unfold storeUint.
  destruct (Z.leb_spec 0 v); [|reflexivity].
  destruct (Z.ltb_spec v (2 ^ Z.of_nat n)); [lia|reflexivity].
Qed.

Lemma storeInt_bits v n b :
  - 2 ^ (Z.of_nat n - 1) <= v < 2 ^ (Z.of_nat n - 1) ->
  storeInt v n b = storeBits (uint_bits n (v mod 2 ^ Z.of_nat n)) b.
Proof.
  intros H. unfold storeInt.
  destruct (Z.leb_spec (- 2 ^ (Z.of_nat n - 1)) v); [|lia].
  now destruct (Z.ltb_spec v (2 ^ (Z.of_nat n - 1))); [|lia].
Qed.

Lemma storeAddress_bits a b :
  valid_address a -> storeAddress a b = storeBits (address_bits a) b.
Proof.
  intros [Hw Hh]. unfold storeAddress, address_bits. cbn [chain].
  rewrite (storeUint_bits 2 2) by (cbn; lia).
  rewrite (storeBits_then _ (uint_bits 1 0))
    by (intros; apply storeUint_bits; cbn; lia).
  rewrite (storeBits_then _ (uint_bits 8 (workChain a mod 2 ^ 8)))
    by (intros; apply (storeInt_bits _ 8); cbn; lia).
  rewrite (storeBits_then _ (uint_bits 256 (hash a)))
    by (intros; apply storeUint_bits; exact Hh).
  f_equal.
Qed.

Lemma storeMaybeAddress_bits a b :
  valid_maybe_address a ->
  storeMaybeAddress a b = storeBits (maybe_address_bits a) b.
Proof.
  destruct a as [a|]; cbn [valid_maybe_address storeMaybeAddress maybe_address_bits].
  - apply storeAddress_bits.
  - intros _. now rewrite storeUint_bits by (cbn; lia).
Qed.

Lemma address_bits_length a : length (address_bits a) = 267%nat.
Proof.
  unfold address_bits. now rewrite !length_app, !uint_bits_length.
Qed.

Lemma maybe_address_bits_length a :
  (length (maybe_address_bits a) <= 267)%nat.
Proof.
  destruct a; cbn [maybe_address_bits]; [rewrite address_bits_length|cbn]; lia.
Qed.

(** *** Readers undo the stores *)

Lemma loadUint_uint_bits n v rest :
  0 <= v < 2 ^ Z.of_nat n ->
  loadUint n (uint_bits n v ++ rest) = Some (v, rest).
Proof.
  intros H. rewrite loadUint_app by apply uint_bits_length.
  now rewrite bits_uint_roundtrip.
Qed.

Lemma loadInt_uint_bits n v rest :
  (0 < n)%nat ->
  - 2 ^ (Z.of_nat n - 1) <= v < 2 ^ (Z.of_nat n - 1) ->
  loadInt n (uint_bits n (v mod 2 ^ Z.of_nat n) ++ rest) = Some (v, rest).
Proof.
  intros Hn H. unfold loadInt.
  assert (Hp : 2 ^ Z.of_nat n = 2 * 2 ^ (Z.of_nat n - 1)).
  { rewrite <- Z.pow_succ_r by lia. f_equal. lia. }
  rewrite loadUint_uint_bits by (apply Z.mod_pos_bound; lia).
  cbn [mbind option_bind]. do 2 f_equal.
  destruct (Z_lt_le_dec v 0) as [Hneg|Hpos].
  - assert (E : v mod 2 ^ Z.of_nat n = v + 2 ^ Z.of_nat n).
    { symmetry. apply Z.mod_unique with (q := -1); lia. }
    rewrite E. destruct (Z.leb_spec (2 ^ (Z.of_nat n - 1)) (v + 2 ^ Z.of_nat n)); lia.
  - rewrite Z.mod_small by lia.
    destruct (Z.leb_spec (2 ^ (Z.of_nat n - 1)) v); lia.
Qed.

Lemma loadMaybeAddress_bits a rest :
  valid_maybe_address a ->
  loadMaybeAddress (maybe_address_bits a ++ rest) = Some (a, rest).
Proof.
  destruct a as [a|]; cbn [valid_maybe_address maybe_address_bits].
  - intros [Hw Hh]. unfold loadMaybeAddress, address_bits.
    rewrite <- !app_assoc.
    change [true; false] with (uint_bits 2 2).
    rewrite loadUint_uint_bits by (cbn; lia). cbn [mbind option_bind].
    change (2 =? 0) with false. change (2 =? 2) with true. cbv iota.
    change [false] with (uint_bits 1 0).
    rewrite loadUint_uint_bits by (cbn; lia). cbn [mbind option_bind].
    change (0 =? 0) with true. cbv iota.
    rewrite (loadInt_uint_bits 8) by (cbn; lia). cbn [mbind option_bind].
    rewrite loadUint_uint_bits by exact Hh. cbn [mbind option_bind].
    now destruct a.
  - intros _. reflexivity.
Qed.

Lemma loadAddressCell_addressCell a c :
  valid_address a -> addressCell a = Some c -> loadAddressCell c = Some a.
Proof.
  intros Ha E. rewrite addressCell_Some in E by exact Ha. injection E as <-.
  unfold loadAddressCell. cbn [bits refs].
  rewrite <- (app_nil_r (address_bits a)).
  now rewrite (loadMaybeAddress_bits (Some a)).
Qed.

End CellCodec.

Lemma chain_Some_inv {A B : Type} (m : option A) (f : A -> option B) y :
  TonCell.chain m f = Some y -> exists x, m = Some x /\ f x = Some y.
Proof. destruct m; cbn; [eauto|discriminate]. Qed.

(** Takes a successful chain of stores apart, last store first. *)
Ltac chain_inv H :=
  repeat match type of H with
  | TonCell.chain _ _ = Some _ =>
      let b := fresh "b" in let E := fresh "E" in
      apply chain_Some_inv in H as (b & H & E)
  end.

(** A range check on closed numbers. *)
Ltac closed_range := split; vm_compute; [discriminate | reflexivity].

(** Reads one unsigned field back. *)
Ltac read_uint :=
  rewrite loadUint_uint_bits by (assumption || closed_range);
  cbn [mbind option_bind].

Section WrapperMessages.
Import TonCell.

Lemma storeBits_Some_inv l b b' :
  storeBits l b = Some b' -> b' = mkCell (bits b ++ l) (refs b).
Proof. unfold storeBits. destruct (_ <=? _)%nat; [now intros [= <-]|discriminate]. Qed.

Lemma storeUint_Some_inv v n b b' :
  storeUint v n b = Some b' -> 0 <= v < 2 ^ Z.of_nat n.
Proof.
  unfold storeUint.
  destruct (Z.leb_spec 0 v); [|discriminate].
  destruct (Z.ltb_spec v (2 ^ Z.of_nat n)); [|discriminate]. lia.
Qed.

Lemma storeInt_Some_inv v n b b' :
  storeInt v n b = Some b' ->
  - 2 ^ (Z.of_nat n - 1) <= v < 2 ^ (Z.of_nat n - 1).
Proof.
  unfold storeInt.
  destruct (Z.leb_spec (- 2 ^ (Z.of_nat n - 1)) v); [|discriminate].
  destruct (Z.ltb_spec v (2 ^ (Z.of_nat n - 1))); [|discriminate]. lia.
Qed.

Lemma storeAddress_Some_inv a b b' :
  storeAddress a b = Some b' -> valid_address a.
Proof.
  unfold storeAddress. intros H.
  apply chain_Some_inv in H as (b4 & H & H4).
  apply chain_Some_inv in H as (b3 & H & H3).
  apply storeInt_Some_inv in H3. apply storeUint_Some_inv in H4.
  split; [exact H3 | exact H4].
Qed.

Lemma storeMaybeAddress_Some_inv a b b' :
  storeMaybeAddress a b = Some b' -> valid_maybe_address a.
Proof.
  destruct a; cbn [storeMaybeAddress valid_maybe_address]; [|trivial].
  apply storeAddress_Some_inv.
Qed.

Lemma addressCell_Some_inv a c : addressCell a = Some c -> valid_address a.
Proof.
  unfold addressCell. intros H.
  apply chain_Some_inv in H as (b & H & _). cbn [chain] in H.
  now apply storeAddress_Some_inv in H.
Qed.

Lemma body_of_valid m c : body_of m = Some c -> valid_message m.
Proof.
  destruct m; cbn [body_of valid_message];
    unfold sendDeploy, sendAddLiquidity, sendRemoveLiquidity,
      sendUpdateReserves, sendAddAuthorized, sendRemoveAuthorized,
      sendSetLockStatus, uint128; intros H.
  - cbn [owner_address token_a_address token_b_address lp_token_address] in H.
    destruct (addressCell owner) eqn:E1; [|discriminate].
    destruct (addressCell token_a) eqn:E2; [|discriminate].
    destruct (addressCell token_b) eqn:E3; [|discriminate].
    destruct (addressCell lp_token) eqn:E4; [|discriminate].
    repeat split; eapply addressCell_Some_inv; eassumption.
  - chain_inv H.
    repeat match goal with
    | E : storeUint _ _ _ = Some _ |- _ => apply storeUint_Some_inv in E
    | E : storeMaybeAddress _ _ = Some _ |- _ => apply storeMaybeAddress_Some_inv in E
    end. auto.
  - chain_inv H.
    repeat match goal with
    | E : storeUint _ _ _ = Some _ |- _ => apply storeUint_Some_inv in E
    | E : storeMaybeAddress _ _ = Some _ |- _ => apply storeMaybeAddress_Some_inv in E
    end. auto.
  - chain_inv H.
    repeat match goal with
    | E : storeUint _ _ _ = Some _ |- _ => apply storeUint_Some_inv in E
    end. auto.
  - chain_inv H. eapply storeAddress_Some_inv; eassumption.
  - chain_inv H. eapply storeAddress_Some_inv; eassumption.
  - trivial.
Qed.

(** The bits of each body, for the requests the builder accepts. *)
Lemma sendAddLiquidity_bits a b via :
  uint128 a -> uint128 b -> valid_maybe_address via ->
  sendAddLiquidity a b via =
    Some (mkCell (uint_bits 32 102 ++ uint_bits 128 a ++ uint_bits 128 b
                    ++ maybe_address_bits via) []).
Proof.
  intros Ha Hb Hv. unfold sendAddLiquidity, endCell. cbn [chain].
  rewrite (storeUint_bits _ 32) by closed_range.
  rewrite (storeBits_then _ (uint_bits 128 a)) by (intros; now apply storeUint_bits).
  rewrite (storeBits_then _ (uint_bits 128 b)) by (intros; now apply storeUint_bits).
  rewrite (storeBits_then _ (maybe_address_bits via))
    by (intros; now apply storeMaybeAddress_bits).
  rewrite storeBits_nil_cell.
  pose proof (maybe_address_bits_length via).
  destruct (Nat.leb_spec (length ((((uint_bits 32 PoolOpcodes.add_liquidity
      ++ uint_bits 128 a) ++ uint_bits 128 b) ++ maybe_address_bits via))) MAX_BITS)
    as [_|Hbad].
  - cbn [chain]. now rewrite <- !app_assoc.
  - rewrite !length_app, !uint_bits_length in Hbad. unfold MAX_BITS in Hbad. lia.
Qed.

Lemma sendRemoveLiquidity_bits a via :
  uint128 a -> valid_maybe_address via ->
  sendRemoveLiquidity a via =
    Some (mkCell (uint_bits 32 103 ++ uint_bits 128 a
                    ++ maybe_address_bits via) []).
Proof.
  intros Ha Hv. unfold sendRemoveLiquidity, endCell. cbn [chain].
  rewrite (storeUint_bits _ 32) by closed_range.
  rewrite (storeBits_then _ (uint_bits 128 a)) by (intros; now apply storeUint_bits).
  rewrite (storeBits_then _ (maybe_address_bits via))
    by (intros; now apply storeMaybeAddress_bits).
  rewrite storeBits_nil_cell.
  pose proof (maybe_address_bits_length via).
  destruct (Nat.leb_spec (length (((uint_bits 32 PoolOpcodes.remove_liquidity
      ++ uint_bits 128 a) ++ maybe_address_bits via))) MAX_BITS) as [_|Hbad].
  - cbn [chain]. now rewrite <- !app_assoc.
  - rewrite !length_app, !uint_bits_length in Hbad. unfold MAX_BITS in Hbad. lia.
Qed.

Lemma sendUpdateReserves_bits a b :
  uint128 a -> uint128 b ->
  sendUpdateReserves a b =
    Some (mkCell (uint_bits 32 104 ++ uint_bits 128 a ++ uint_bits 128 b) []).
Proof.
  intros Ha Hb. unfold sendUpdateReserves, endCell. cbn [chain].
  rewrite (storeUint_bits _ 32) by closed_range.
  rewrite (storeBits_then _ (uint_bits 128 a)) by (intros; now apply storeUint_bits).
  rewrite (storeBits_then _ (uint_bits 128 b)) by (intros; now apply storeUint_bits).
  rewrite storeBits_nil_cell.
  destruct (Nat.leb_spec (length ((uint_bits 32 PoolOpcodes.update_reserves
      ++ uint_bits 128 a) ++ uint_bits 128 b)) MAX_BITS) as [_|Hbad].
  - cbn [chain]. now rewrite <- !app_assoc.
  - rewrite !length_app, !uint_bits_length in Hbad. unfold MAX_BITS in Hbad. lia.
Qed.

Lemma send_authorized_bits op a :
  0 <= op < 2 ^ 32 -> valid_address a ->
  Some beginCell >>= storeUint op 32 >>= storeAddress a >>= endCell =
    Some (mkCell (uint_bits 32 op ++ address_bits a) []).
Proof.
  intros Hop Ha. unfold endCell. cbn [chain].
  rewrite (storeUint_bits _ 32) by exact Hop.
  rewrite (storeBits_then _ (address_bits a)) by (intros; now apply storeAddress_bits).
  rewrite storeBits_nil_cell.
  destruct (Nat.leb_spec (length (uint_bits 32 op ++ address_bits a)) MAX_BITS)
    as [_|Hbad].
  - reflexivity.
  - rewrite length_app, uint_bits_length, address_bits_length in Hbad.
    unfold MAX_BITS in Hbad. lia.
Qed.

Lemma sendDeploy_bits config :
  valid_address (owner_address config) ->
  valid_address (token_a_address config) ->
  valid_address (token_b_address config) ->
  valid_address (lp_token_address config) ->
  sendDeploy config =
    Some (mkCell (uint_bits 32 106)
            [ mkCell (address_bits (owner_address config)) [];
              mkCell (address_bits (token_a_address config)) [];
              mkCell (address_bits (token_b_address config)) [];
              mkCell (address_bits (lp_token_address config)) [] ]).
Proof.
  intros Ho Ha Hb Hl. unfold sendDeploy.
  rewrite !addressCell_Some by assumption. cbn [mbind option_bind].
  reflexivity.
Qed.

Lemma loadAddressCell_bits a :
  valid_address a -> loadAddressCell (mkCell (address_bits a) []) = Some a.
Proof.
  intros Ha. unfold loadAddressCell. cbn [bits refs].
  rewrite <- (app_nil_r (address_bits a)).
  now rewrite (loadMaybeAddress_bits (Some a)).
Qed.

(** X13.  Every request of the wrapper that the builder accepts reads
    back from its body: opcode, amounts, addresses and the lock flag are
    all recovered. *)
Theorem body_round_trip m :
  valid_message m ->
  exists c, body_of m = Some c /\ readBody c = Some m.
Proof.
  destruct m; cbn [valid_message body_of]; unfold uint128.
  - intros (Ho & Ha & Hb & Hl). eexists. split.
    + now apply sendDeploy_bits.
    + unfold readBody. cbn [bits refs].
      rewrite <- (app_nil_r (uint_bits 32 106)). read_uint.
      change (106 =? PoolOpcodes.initialize_contract) with true. cbv iota.
      cbn [owner_address token_a_address token_b_address lp_token_address].
      rewrite !loadAddressCell_bits by assumption. reflexivity.
  - intros (Ha & Hb & Hv). eexists. split.
    + now apply sendAddLiquidity_bits.
    + unfold readBody. cbn [bits refs]. read_uint.
      change (102 =? PoolOpcodes.initialize_contract) with false.
      change (102 =? PoolOpcodes.add_liquidity) with true. cbv iota.
      do 2 read_uint.
      rewrite <- (app_nil_r (maybe_address_bits via)).
      now rewrite loadMaybeAddress_bits.
  - intros (Ha & Hv). eexists. split.
    + now apply sendRemoveLiquidity_bits.
    + unfold readBody. cbn [bits refs]. read_uint.
      change (103 =? PoolOpcodes.initialize_contract) with false.
      change (103 =? PoolOpcodes.add_liquidity) with false.
      change (103 =? PoolOpcodes.remove_liquidity) with true. cbv iota.
      read_uint.
      rewrite <- (app_nil_r (maybe_address_bits via)).
      now rewrite loadMaybeAddress_bits.
  - intros (Ha & Hb). eexists. split.
    + now apply sendUpdateReserves_bits.
    + unfold readBody. cbn [bits refs]. read_uint.
      change (104 =? PoolOpcodes.initialize_contract) with false.
      change (104 =? PoolOpcodes.add_liquidity) with false.
      change (104 =? PoolOpcodes.remove_liquidity) with false.
      change (104 =? PoolOpcodes.update_reserves) with true. cbv iota.
      read_uint.
      rewrite <- (app_nil_r (uint_bits 128 new_reserve_b)). read_uint.
      reflexivity.
  - intros Ha. eexists. split.
    + unfold sendAddAuthorized. apply send_authorized_bits; [|exact Ha].
      closed_range.
    + unfold readBody. cbn [bits refs]. read_uint.
      change (PoolOpcodes.add_authorized =? PoolOpcodes.initialize_contract) with false.
      change (PoolOpcodes.add_authorized =? PoolOpcodes.add_liquidity) with false.
      change (PoolOpcodes.add_authorized =? PoolOpcodes.remove_liquidity) with false.
      change (PoolOpcodes.add_authorized =? PoolOpcodes.update_reserves) with false.
      change (PoolOpcodes.add_authorized =? PoolOpcodes.add_authorized) with true.
      cbv iota.
      rewrite <- (app_nil_r (address_bits address)).
      now rewrite (loadMaybeAddress_bits (Some address)).
  - intros Ha. eexists. split.
    + unfold sendRemoveAuthorized. apply send_authorized_bits; [|exact Ha].
      closed_range.
    + unfold readBody. cbn [bits refs]. read_uint.
      change (PoolOpcodes.remove_authorized =? PoolOpcodes.initialize_contract) with false.
      change (PoolOpcodes.remove_authorized =? PoolOpcodes.add_liquidity) with false.
      change (PoolOpcodes.remove_authorized =? PoolOpcodes.remove_liquidity) with false.
      change (PoolOpcodes.remove_authorized =? PoolOpcodes.update_reserves) with false.
      change (PoolOpcodes.remove_authorized =? PoolOpcodes.add_authorized) with false.
      change (PoolOpcodes.remove_authorized =? PoolOpcodes.remove_authorized) with true.
      cbv iota.
      rewrite <- (app_nil_r (address_bits address)).
      now rewrite (loadMaybeAddress_bits (Some address)).
  - intros _. destruct status; eexists; (split; [|]); vm_compute; reflexivity.
Qed.

Lemma body_round_trip_witness :
  valid_message (MsgAddLiquidity 5 7 (Some (example_address 9))) /\
  exists c,
    body_of (MsgAddLiquidity 5 7 (Some (example_address 9))) = Some c /\
    readBody c = Some (MsgAddLiquidity 5 7 (Some (example_address 9))).
Proof.
  assert (H : valid_message (MsgAddLiquidity 5 7 (Some (example_address 9)))).
  { cbn. unfold uint128, valid_address. cbn.
    repeat split; try lia; vm_compute; (reflexivity || discriminate). }
  split; [exact H|]. exact (body_round_trip _ H).
Defined.

(** X14.  The [send...] methods build a body exactly for the requests
    whose amounts fit 128 unsigned bits (and whose addresses are well
    formed); for any other request the builder raises. *)
Theorem body_of_accepts_iff m :
  (exists c, body_of m = Some c) <-> valid_message m.
Proof.
  split.
  - intros [c H]. eapply body_of_valid; eassumption.
  - intros H. destruct (body_round_trip m H) as (c & E & _). eauto.
Qed.

Example sendAddLiquidity_too_large :
  sendAddLiquidity (2 ^ 128) 0 None = None /\
  sendAddLiquidity (-1) 0 None = None /\
  sendAddLiquidity 0 (2 ^ 128 - 1) None <> None.
Proof. repeat split; vm_compute; (reflexivity || discriminate). Qed.



(** The fields read back from the storage of a new pool. *)
Lemma loadPoolData_initial ml refs :
  0 <= ml < 2 ^ 128 ->
  loadPoolData
    (mkCell (uint_bits 128 0 ++ uint_bits 128 0 ++ uint_bits 128 0
               ++ uint_bits 128 ml ++ uint_bits 1 0 ++ [false]) refs)
  = Some (mkPoolData 0 0 0 ml false true).
Proof.
  intros Hm. unfold loadPoolData. cbn [bits].
  do 3 read_uint. rewrite loadUint_uint_bits by exact Hm.
  cbn [mbind option_bind]. reflexivity.
Qed.

Lemma poolConfigToCell_valid config c :
  poolConfigToCell config = Some c -> valid_config config.
Proof.
  unfold poolConfigToCell, valid_config. intros H.
  destruct (addressCell (owner_address config)) eqn:E1; [|discriminate].
  destruct (addressCell (token_a_address config)) eqn:E2; [|discriminate].
  destruct (addressCell (token_b_address config)) eqn:E3; [|discriminate].
  destruct (addressCell (lp_token_address config)) eqn:E4; [|discriminate].
  cbn [mbind option_bind] in H. chain_inv H.
  repeat (split; [eapply addressCell_Some_inv; eassumption|]).
  match goal with
  | E : storeUint (min_liquidity config) _ _ = Some _ |- _ =>
      apply storeUint_Some_inv in E; exact E
  end.
Qed.

(** X16.  [poolConfigToCell] succeeds exactly on the configurations
    with well-formed addresses and a liquidity floor that fits 128
    unsigned bits, and the storage it builds determines the
    configuration: the four addresses and the floor read back from
    it. *)
Theorem poolConfigToCell_round_trip config :
  ((exists c, poolConfigToCell config = Some c) <-> valid_config config) /\
  (forall c, poolConfigToCell config = Some c -> readConfig c = Some config).
Proof.
  assert (Hrt : forall c, valid_config config ->
            poolConfigToCell config = Some c -> readConfig c = Some config).
  { intros c (Ho & Ha & Hb & Hl & Hm) E.
    rewrite poolConfigToCell_Some in E by assumption.
    apply (inj Some) in E. subst c.
    unfold readConfig. cbn [refs].
    rewrite !loadAddressCell_bits by assumption. cbn [mbind option_bind].
    rewrite loadPoolData_initial by exact Hm. cbn [mbind option_bind].
    now destruct config. }
  split; [split|].
  - intros [c H]. eapply poolConfigToCell_valid; eassumption.
  - intros (Ho & Ha & Hb & Hl & Hm). eexists.
    now apply poolConfigToCell_Some.
  - intros c E. apply Hrt; [|exact E]. eapply poolConfigToCell_valid; eassumption.
Qed.

Lemma poolConfigToCell_round_trip_witness :
  exists c,
    poolConfigToCell example_config = Some c /\
    readConfig c = Some example_config.
Proof.
  destruct (poolConfigToCell example_config) as [c|] eqn:E.
  - exists c. split; [reflexivity|].
    exact (proj2 (poolConfigToCell_round_trip example_config) c E).
  - exfalso. vm_compute in E. discriminate E.
Defined.

End WrapperMessages.

Section Coins.
Import TonCell.

Lemma bytes_of_bounds v :
  0 < v < 2 ^ 120 ->
  1 <= bytes_of v <= 15 /\ v < 2 ^ (8 * bytes_of v).
Proof.
  intros [Hpos Hlt]. unfold bytes_of.
  pose proof (Z.log2_nonneg v) as H0.
  assert (H1 : Z.log2 v < 120) by (apply Z.log2_lt_pow2; lia).
  pose proof (Z.log2_spec v Hpos) as [_ H2].
  pose proof (Z.div_mod (Z.log2 v + 8) 8 ltac:(lia)) as Hd.
  pose proof (Z.mod_pos_bound (Z.log2 v + 8) 8 ltac:(lia)) as Hm.
  split; [lia|].
  eapply Z.lt_le_trans; [exact H2|].
  apply Z.pow_le_mono_r; lia.
Qed.

Lemma storeCoins_bits v b :
  coins v -> storeCoins v b = storeBits (coins_bits v) b.
Proof.
  intros [H0 H1]. unfold storeCoins, coins_bits.
  destruct (Z.ltb_spec v 0); [lia|].
  destruct (Z.eqb_spec v 0) as [->|Hne].
  - apply storeUint_bits. cbn. lia.
  - destruct (bytes_of_bounds v ltac:(lia)) as [Hb Hv].
    cbn [chain]. rewrite (storeUint_bits _ 4) by (cbn; lia).
    apply storeBits_then. intros b'. apply storeUint_bits.
    rewrite Z2Nat.id by lia. lia.
Qed.

Lemma storeCoins_Some_inv v b b' : storeCoins v b = Some b' -> coins v.
Proof.
  unfold storeCoins, coins.
  destruct (Z.ltb_spec v 0); [discriminate|].
  destruct (Z.eqb_spec v 0) as [->|Hne]; [intros _; split; [lia|reflexivity]|].
  intros Hs. apply chain_Some_inv in Hs as (b1 & Hs & _). cbn [chain] in Hs.
  apply storeUint_Some_inv in Hs. split; [lia|].
  apply Z.log2_lt_pow2; [lia|]. unfold bytes_of in Hs.
  change (2 ^ Z.of_nat 4) with 16 in Hs.
  pose proof (Z.div_mod (Z.log2 v + 8) 8 ltac:(lia)) as Hd.
  pose proof (Z.mod_pos_bound (Z.log2 v + 8) 8 ltac:(lia)) as Hm.
  lia.
Qed.

Lemma coins_bits_length v :
  coins v -> (length (coins_bits v) <= 124)%nat.
Proof.
  intros [H0 H1]. unfold coins_bits.
  destruct (Z.eqb_spec v 0) as [->|Hne].
  - rewrite uint_bits_length. lia.
  - destruct (bytes_of_bounds v ltac:(lia)) as [Hb _].
    rewrite length_app, !uint_bits_length. lia.
Qed.

Lemma loadCoins_bits v rest :
  coins v -> loadCoins (coins_bits v ++ rest) = Some (v, rest).
Proof.
  intros [H0 H1]. unfold loadCoins, coins_bits.
  destruct (Z.eqb_spec v 0) as [->|Hne].
  - rewrite loadUint_uint_bits by (cbn; lia). reflexivity.
  - destruct (bytes_of_bounds v ltac:(lia)) as [Hb Hv].
    rewrite <- app_assoc.
    rewrite loadUint_uint_bits by (cbn; lia). cbn [mbind option_bind].
    apply loadUint_uint_bits. rewrite Z2Nat.id by lia. lia.
Qed.

End Coins.

(** Fuses a chain of stores into one store of the concatenated bits. *)
Ltac fuse :=
  repeat match goal with
  | |- context [TonCell.chain (TonCell.storeBits ?l ?b) (TonCell.storeAddress ?a)] =>
      rewrite (storeBits_then l (TonCell.address_bits a) (TonCell.storeAddress a) b)
        by (intros; apply storeAddress_bits; assumption)
  | |- context [TonCell.chain (TonCell.storeBits ?l ?b) (TonCell.storeMaybeAddress ?a)] =>
      rewrite (storeBits_then l (TonCell.maybe_address_bits a)
                 (TonCell.storeMaybeAddress a) b)
        by (intros; apply storeMaybeAddress_bits; assumption)
  | |- context [TonCell.chain (TonCell.storeBits ?l ?b) (TonCell.storeCoins ?v)] =>
      rewrite (storeBits_then l (TonCell.coins_bits v) (TonCell.storeCoins v) b)
        by (intros; apply storeCoins_bits; assumption)
  | |- context [TonCell.chain (TonCell.storeBits ?l ?b) (TonCell.storeUint ?v ?n)] =>
      rewrite (storeBits_then l (TonCell.uint_bits n v) (TonCell.storeUint v n) b)
        by (intros; apply storeUint_bits; assumption)
  | |- context [TonCell.chain (TonCell.storeBits ?l ?b) (TonCell.storeBit ?x)] =>
      rewrite (storeBits_then l [x] (TonCell.storeBit x) b)
        by (intros; reflexivity)
  end.

(** The room left in a cell, from the lengths of the fields. *)
Ltac room :=
  repeat match goal with
  | H : TonCell.coins ?v |- _ =>
      lazymatch goal with
      | _ : (length (TonCell.coins_bits v) <= 124)%nat |- _ => fail
      | _ => pose proof (coins_bits_length v H)
      end
  end;
  unfold TonCell.beginCell; cbn [TonCell.bits TonCell.refs];
  rewrite ?length_app, ?uint_bits_length, ?address_bits_length;
  unfold TonCell.MAX_BITS, TonCell.MAX_REFS in *; cbn [length]; lia.

Section PoolEncoders.
Import TonCell.

Lemma loadAddress_bits a rest :
  valid_address a -> loadMaybeAddress (address_bits a ++ rest) = Some (Some a, rest).
Proof. intros H. exact (loadMaybeAddress_bits (Some a) rest H). Qed.





Example data_rejects_wide_fields :
  data (mkPoolStorage (example_address 1) 256 5 10 (example_address 2)
          0 0 0 0 (example_address 3) (example_address 4) 0 beginCell beginCell)
    = None /\
  data (mkPoolStorage (example_address 1) 255 5 10 (example_address 2)
          0 0 0 (2 ^ 120) (example_address 3) (example_address 4) 0
          beginCell beginCell) = None.
Proof. split; vm_compute; reflexivity. Qed.

Section WithHeader.

Variable beginMessage : Z -> option Cell.

(** X18.  The [swap] request, after a header that leaves 784 bits and
    one reference free, reads back as: sender, token wallet, amount,
    minimum output, the referral flag (false when absent), the constant
    flag true, and a reference cell with the sender again and the
    referral address.  The referral address is stored whatever the
    flag says, and [toAddress] is stored nowhere. *)
Theorem swap_round_trip h fromAddress tokenWallet jettonAmount toAddress
    minOutput hasRef refAddress :
  beginMessage 0x25938561 = Some h ->
  (length (bits h) + 784 <= MAX_BITS)%nat ->
  (length (refs h) < MAX_REFS)%nat ->
  valid_address fromAddress -> valid_address tokenWallet ->
  coins jettonAmount -> coins minOutput ->
  valid_maybe_address refAddress ->
  exists payload refCell,
    swap beginMessage fromAddress tokenWallet jettonAmount toAddress
         minOutput hasRef refAddress
      = Some (mkCell (bits h ++ payload) (refs h ++ [refCell])) /\
    readSwap payload refCell =
      Some (mkSwapPayload fromAddress tokenWallet jettonAmount minOutput
              (default false hasRef) true fromAddress refAddress).
Proof.
  intros Hh Hroom Hrefs Hf Hw Ha Hm Hr.
  pose proof (maybe_address_bits_length refAddress) as Hlen.
  unfold swap, endCell. cbn [chain].
  rewrite (storeAddress_bits fromAddress beginCell) by assumption.
  fuse. rewrite storeBits_Some by room. cbn [chain mbind option_bind bits refs app].
  rewrite Hh. cbn [chain].
  rewrite (storeAddress_bits fromAddress h) by assumption.
  fuse. rewrite storeBits_Some by room. cbn [chain bits refs].
  rewrite storeRef_Some by room. cbn [chain bits refs].
  do 2 eexists. split; [reflexivity|].
  unfold readSwap. rewrite <- !app_assoc.
  do 2 (rewrite loadAddress_bits by assumption; cbn [mbind option_bind]).
  do 2 (rewrite loadCoins_bits by assumption; cbn [mbind option_bind]).
  unfold beginCell. cbn [app loadBit mbind option_bind bits].
  rewrite loadAddress_bits by assumption. cbn [mbind option_bind].
  rewrite <- (app_nil_r (maybe_address_bits refAddress)).
  rewrite loadMaybeAddress_bits by assumption. reflexivity.
Qed.

(** X19.  The [provideLiquidity] request stores the sender, then
    [minLPOut], then the two amounts, and all four read back; an amount
    of [2^120] or more makes the builder raise. *)
Theorem provideLiquidity_round_trip h fromAddress jettonAmount0 jettonAmount1
    minLPOut :
  beginMessage 0xfcf9e58f = Some h ->
  (length (bits h) + 639 <= MAX_BITS)%nat ->
  valid_address fromAddress ->
  (coins jettonAmount0 -> coins jettonAmount1 -> coins minLPOut ->
   exists payload,
     provideLiquidity beginMessage fromAddress jettonAmount0 jettonAmount1 minLPOut
       = Some (mkCell (bits h ++ payload) (refs h)) /\
     readProvideLiquidity payload
       = Some (fromAddress, jettonAmount0, jettonAmount1, minLPOut)) /\
  (2 ^ 120 <= jettonAmount0 \/ 2 ^ 120 <= jettonAmount1 \/ 2 ^ 120 <= minLPOut ->
   provideLiquidity beginMessage fromAddress jettonAmount0 jettonAmount1 minLPOut
     = None).
Proof.
  intros Hh Hroom Hf. split.
  - intros H0 H1 Hm. unfold provideLiquidity, endCell. rewrite Hh. cbn [chain].
    rewrite (storeAddress_bits fromAddress h) by assumption.
    fuse. rewrite storeBits_Some by room. cbn [chain bits refs].
    eexists. split; [reflexivity|].
    unfold readProvideLiquidity. rewrite <- !app_assoc.
    rewrite loadAddress_bits by assumption. cbn [mbind option_bind].
    do 2 (rewrite loadCoins_bits by assumption; cbn [mbind option_bind]).
    rewrite <- (app_nil_r (coins_bits jettonAmount1)).
    rewrite loadCoins_bits by assumption. reflexivity.
  - intros Hbig.
    destruct (provideLiquidity beginMessage fromAddress jettonAmount0
                jettonAmount1 minLPOut) as [c|] eqn:E; [|reflexivity].
    exfalso. unfold provideLiquidity in E. chain_inv E.
    repeat match goal with
    | E : storeCoins _ _ = Some _ |- _ => apply storeCoins_Some_inv in E
    end.
    unfold coins in *. lia.
Qed.

End WithHeader.

Lemma swap_round_trip_witness :
  exists payload refCell,
    swap opcode_header (example_address 1) (example_address 2) 1000
         (example_address 3) 990 None (Some (example_address 4))
      = Some (mkCell (uint_bits 32 0x25938561 ++ payload) ([] ++ [refCell])) /\
    readSwap payload refCell =
      Some (mkSwapPayload (example_address 1) (example_address 2) 1000 990
              false true (example_address 1) (Some (example_address 4))).
Proof.
  assert (Ha : forall n, 0 <= n < 2 ^ 256 -> valid_address (example_address n)).
  { intros n Hn. split; [cbn; lia | exact Hn]. }
  assert (H256 : forall n, 0 <= n < 100 -> 0 <= n < 2 ^ 256).
  { intros n Hn. split; [lia|]. eapply Z.lt_trans; [apply Hn|reflexivity]. }
  apply (swap_round_trip opcode_header (mkCell (uint_bits 32 0x25938561) [])
           (example_address 1) (example_address 2) 1000 (example_address 3) 990
           None (Some (example_address 4))).
  - vm_compute. reflexivity.
  - cbn [bits]. rewrite uint_bits_length. unfold MAX_BITS. lia.
  - unfold MAX_REFS. cbn [refs length]. lia.
  - apply Ha, H256. lia.
  - apply Ha, H256. lia.
  - split; [lia | reflexivity].
  - split; [lia | reflexivity].
  - apply Ha, H256. lia.
Defined.

Lemma provideLiquidity_round_trip_witness :
  exists payload,
    provideLiquidity opcode_header (example_address 1) 100000 400000 1
      = Some (mkCell (uint_bits 32 0xfcf9e58f ++ payload) []) /\
    readProvideLiquidity payload = Some (example_address 1, 100000, 400000, 1).
Proof.
  apply (proj1 (provideLiquidity_round_trip opcode_header
           (mkCell (uint_bits 32 0xfcf9e58f) []) (example_address 1)
           100000 400000 1 ltac:(vm_compute; reflexivity)
           ltac:(cbn [bits]; rewrite uint_bits_length; unfold MAX_BITS; lia)
           ltac:(split; [cbn; lia | split; [cbn; lia | reflexivity]]))).
  - split; [lia | reflexivity].
  - split; [lia | reflexivity].
  - split; [lia | reflexivity].
Defined.

End PoolEncoders.

(** ** The [setFees] request, read back *)

Section SetFeesRequest.
Import TonCell.

Variable beginMessage : Z -> option Cell.

(** X20.  After a header that leaves 291 bits free, [setFees] stores
    the three rates on 8 bits each and then the address, and all four
    read back; every rate up to 255 is accepted, and a rate of 256 or
    more makes the builder raise.  The encoder knows no bound of 200. *)
Theorem setFees_round_trip h newLPFee newProtocolFees newRefFee addr :
  beginMessage 0x355423e5 = Some h ->
  (length (bits h) + 291 <= MAX_BITS)%nat ->
  valid_address addr ->
  (uint8 newLPFee -> uint8 newProtocolFees -> uint8 newRefFee ->
   exists payload,
     setFees beginMessage newLPFee newProtocolFees newRefFee addr
       = Some (mkCell (bits h ++ payload) (refs h)) /\
     readSetFees payload = Some (newLPFee, newProtocolFees, newRefFee, addr)) /\
  (256 <= newLPFee \/ 256 <= newProtocolFees \/ 256 <= newRefFee ->
   setFees beginMessage newLPFee newProtocolFees newRefFee addr = None).
Proof.
  intros Hh Hroom Ha. split.
  - intros H1 H2 H3. unfold uint8 in *.
    rewrite (setFees_encodes beginMessage _ _ _ _ h Hh Hroom Ha H1 H2 H3).
    eexists. split; [reflexivity|].
    unfold readSetFees.
    do 3 (rewrite loadUint_uint_bits by assumption; cbn [mbind option_bind]).
    rewrite <- (app_nil_r (address_bits addr)).
    rewrite loadAddress_bits by assumption. reflexivity.
  - intros Hbig.
    destruct (setFees beginMessage newLPFee newProtocolFees newRefFee addr)
      as [c|] eqn:E; [|reflexivity].
    exfalso. unfold setFees in E. chain_inv E.
    repeat match goal with
    | E : storeUint _ _ _ = Some _ |- _ => apply storeUint_Some_inv in E
    end.
    change (2 ^ Z.of_nat 8) with 256 in *. lia.
Qed.

End SetFeesRequest.

Lemma setFees_round_trip_witness :
  exists payload,
    TonCell.setFees TonCell.opcode_header 255 200 0 (TonCell.example_address 9)
      = Some (TonCell.mkCell (TonCell.uint_bits 32 0x355423e5 ++ payload) []) /\
    TonCell.readSetFees payload = Some (255, 200, 0, TonCell.example_address 9).
Proof.
  apply (proj1 (setFees_round_trip TonCell.opcode_header
           (TonCell.mkCell (TonCell.uint_bits 32 0x355423e5) []) 255 200 0
           (TonCell.example_address 9) ltac:(vm_compute; reflexivity)
           ltac:(cbn [TonCell.bits]; rewrite uint_bits_length;
                 unfold TonCell.MAX_BITS; lia)
           ltac:(split; [cbn; lia | split; [cbn; lia | reflexivity]]))).
  - split; [lia | reflexivity].
  - split; [lia | reflexivity].
  - split; [lia | reflexivity].
Defined.
